(** * jsonmask: masking rules derived from record types and applied to JSON

    A shallow embedding of the Go package [jsonmask] (files [jsonmask.go]
    and [maskers.go]) together with the properties of its specification.

    Conventions of the embedding:
    - a Go [string] and a Go [[]byte] are both [string] (a sequence of
      bytes); a [nil] byte slice is the empty string;
    - a Go function returning [([]byte, error)] returns a pair
      [bytes * option error], [None] being the [nil] error;
    - [strings.Index] returns [option nat] ([None] for [-1]);
    - a Go [int] is a [Z] in the range of 64 bits, and a sum of [int]s
      wraps around; a call that may panic returns an [option], [None]
      being the panic;
    - the [funcs] map of the masker is a [gmap] keyed by strings;
    - [reflect.Value]s are represented by their static type: the
      introspection code only reads [Kind], [Type], [NumField], [Field],
      and moves to [Elem()], [Index(0)] or a fresh zero value, all of which
      have the element type;
    - [gjson] and [sjson] are external libraries: the masking engine is
      written against an interface [JsonLib]; a reference instance for
      compact documents is given for concrete evaluations. *)

From Stdlib Require Import ZArith Lia Ascii String List DecimalString Decimal.
From stdpp Require Import base strings gmap list.

Local Open Scope Z_scope.

#[global] Arguments String.append : simpl nomatch.

(** ** Byte strings *)

Abbreviation bytes := string.

Module Str.

(** The double quote character. *)
Definition dquote : ascii := "034"%char.

(** [s[:n]] *)
Fixpoint take (n : nat) (s : string) : string :=
  match n, s with
  | S n', String c s' => String c (take n' s')
  | _, _ => EmptyString
  end.

(** [s[n:]] *)
Fixpoint drop (n : nat) (s : string) : string :=
  match n, s with
  | S n', String _ s' => drop n' s'
  | _, _ => s
  end.

(** [s[i]] for an index in range; the zero byte otherwise (Go panics
    there, and no call site of the package indexes out of range). *)
Definition byte_at (s : string) (i : Z) : ascii :=
  if i <? 0 then Ascii.zero
  else match String.get (Z.to_nat i) s with
       | Some c => c
       | None => Ascii.zero
       end.

(** [s[i] = c] on a byte slice. *)
Fixpoint set_nat (i : nat) (c : ascii) (s : string) : string :=
  match s with
  | EmptyString => EmptyString
  | String d s' =>
      match i with
      | O => String c s'
      | S i' => String d (set_nat i' c s')
      end
  end.

Definition set (i : Z) (c : ascii) (s : string) : string :=
  if i <? 0 then s else set_nat (Z.to_nat i) c s.

Definition len (s : string) : Z := Z.of_nat (String.length s).

(** Membership of a byte. *)
Fixpoint mem (c : ascii) (s : string) : bool :=
  match s with
  | EmptyString => false
  | String d s' => Ascii.eqb c d || mem c s'
  end.

(** [strings.Index(s, substr)]: position of the first occurrence. *)
Fixpoint Index (s substr : string) : option nat :=
  match s with
  | EmptyString => if String.prefix substr EmptyString then Some O else None
  | String _ s' =>
      if String.prefix substr s then Some O
      else option_map S (Index s' substr)
  end.

(** [strings.Count(s, substr)] for a non-empty [substr]: the loop
    [for { i := Index(s, substr); if i == -1 { return n }; n++;
    s = s[i+len(substr):] }]. *)
Fixpoint Count_loop (fuel : nat) (s substr : string) (n : nat) : nat :=
  match fuel with
  | O => n
  | S fuel' =>
      match Index s substr with
      | None => n
      | Some i =>
          Count_loop fuel' (drop (i + String.length substr) s) substr (S n)
      end
  end.

Definition Count (s substr : string) : nat :=
  Count_loop (S (String.length s)) s substr O.

(** [strings.ReplaceAll(s, old, new)] for a non-empty [old]. *)
Fixpoint ReplaceAll_loop (fuel : nat) (s old new : string) : string :=
  match fuel with
  | O => s
  | S fuel' =>
      match Index s old with
      | None => s
      | Some j =>
          take j s +:+ new +:+
          ReplaceAll_loop fuel' (drop (j + String.length old) s) old new
      end
  end.

Definition ReplaceAll (s old new : string) : string :=
  ReplaceAll_loop (S (String.length s)) s old new.

(** [strconv.Itoa(i)] for a non-negative [i]. *)
Definition Itoa (i : nat) : string := NilZero.string_of_uint (Nat.to_uint i).

(** ASCII case conversion; [bytes.ToUpper] and [bytes.ToLower] agree with
    it on ASCII text. *)
Definition upper_byte (c : ascii) : ascii :=
  let n := nat_of_ascii c in
  if ((97 <=? n) && (n <=? 122))%nat then ascii_of_nat (n - 32) else c.

Definition lower_byte (c : ascii) : ascii :=
  let n := nat_of_ascii c in
  if ((65 <=? n) && (n <=? 90))%nat then ascii_of_nat (n + 32) else c.

Fixpoint map (f : ascii -> ascii) (s : string) : string :=
  match s with
  | EmptyString => EmptyString
  | String c s' => String (f c) (map f s')
  end.

Definition ToUpper : string -> string := map upper_byte.
Definition ToLower : string -> string := map lower_byte.

(** Documents and raw values are written with an apostrophe standing for
    the double quote: [js "{'id':1}"] is the text [{"id":1}] with double
    quotes. *)
Definition js : string -> string :=
  map (fun c => if Ascii.eqb c "'"%char then dquote else c).

End Str.

(** ** maskers.go *)

Module Maskers.
Import Str.

Definition Upper (s : string) : bytes := ToUpper s.

Definition Lower (s : string) : bytes := ToLower s.

Definition InitialChar (s : string) : bytes :=
  if 2 <? len s then ToUpper (take 2 s +:+ String dquote EmptyString) else s.

(** Go's [int], taken 64 bits wide: a sum that leaves the range wraps
    around. *)
Definition MinInt : Z := -9223372036854775808.
Definition MaxInt : Z := 9223372036854775807.

Definition wrapInt (z : Z) : Z :=
  (z - MinInt) mod 18446744073709551616 + MinInt.

(** [s[:hi]]: Go panics unless [0 <= hi <= len(s)]; [None] is the panic. *)
Definition sliceTo (s : string) (hi : Z) : option string :=
  if (0 <=? hi) && (hi <=? len s) then Some (take (Z.to_nat hi) s) else None.

(** [PrefixFn(length, addEllipsis)] for an [int] [length]. The closure it
    returns panics where [s[:length+1]] is out of range: its result is
    [None] there. *)
Definition PrefixFn (length : Z) (addEllipsis : bool)
  : string -> option bytes :=
  fun s =>
    if len s <=? wrapInt (length + 2) then Some s
    else
      match sliceTo s (wrapInt (length + 1)) with
      | None => None
      | Some res =>
          Some (if addEllipsis then res +:+ "..." +:+ String dquote EmptyString
                else res +:+ String dquote EmptyString)
      end.

(** A closure as an entry of the registry, whose entries are functions
    that return: nil stands for the result of a call that panics. The one
    closure that the package registers, [PrefixFn(4, false)], returns on
    every input. *)
Definition closure (f : string -> option bytes) : string -> bytes :=
  fun s => match f s with Some b => b | None => EmptyString end.

Definition Truncate (s : string) : bytes :=
  if (2 <? len s) && negb (String.eqb (ToUpper s) "NULL")
  then String dquote (String dquote EmptyString)
  else s.

Definition Null (s : string) : bytes := "null".

Definition Zero (s : string) : bytes := "0".

Definition invalidEmail : bytes := js "'invalid_email_format'".

(** [for i := lo; i < hi; i++ { if b[i] == '@' { atIndex = i; break } }],
    [atIndex] starting at [-1]. *)
Fixpoint findAt (fuel : nat) (b : bytes) (i hi : Z) : Z :=
  match fuel with
  | O => -1
  | S fuel' =>
      if i <? hi then
        if Ascii.eqb (byte_at b i) "@"%char then i
        else findAt fuel' b (i + 1) hi
      else -1
  end.

(** [for i := hi; i > lo; i-- { if b[i] == '.' { lastDotIndex = i; break } }] *)
Fixpoint findLastDot (fuel : nat) (b : bytes) (i lo : Z) : Z :=
  match fuel with
  | O => -1
  | S fuel' =>
      if lo <? i then
        if Ascii.eqb (byte_at b i) "."%char then i
        else findLastDot fuel' b (i - 1) lo
      else -1
  end.

(** [for i := lo; i < hi; i++ { b[i] = '*' }] *)
Fixpoint fillStars (fuel : nat) (b : bytes) (i hi : Z) : bytes :=
  match fuel with
  | O => b
  | S fuel' =>
      if i <? hi then fillStars fuel' (set i "*"%char b) (i + 1) hi else b
  end.

Definition Email (email : string) : bytes :=
  let n := len email in
  if (n <? 2) || negb (Ascii.eqb (byte_at email 0) dquote)
     || negb (Ascii.eqb (byte_at email (n - 1)) dquote)
  then invalidEmail
  else
    let fuel := String.length email in
    let emailBytes := email in
    let atIndex := findAt fuel emailBytes 1 (n - 1) in
    if (atIndex <=? 1) || (atIndex =? n - 1) then invalidEmail
    else
      let emailBytes :=
        if atIndex - 1 <=? 2 then fillStars fuel emailBytes 2 atIndex
        else fillStars fuel emailBytes 2 (atIndex - 1) in
      let lastDotIndex := findLastDot fuel emailBytes (n - 2) atIndex in
      if lastDotIndex =? -1 then invalidEmail
      else fillStars fuel emailBytes (atIndex + 2) lastDotIndex.

End Maskers.

(** ** The part of package reflect that the introspection reads *)

Module Reflect.

(** Kinds, as in [reflect.Kind]. *)
Inductive Kind :=
| Invalid | Bool | Int | Int8 | Int16 | Int32 | Int64
| Uint | Uint8 | Uint16 | Uint32 | Uint64 | Uintptr
| Float32 | Float64 | Complex64 | Complex128
| Array | Chan | Func | Interface | Map | Ptr | Slice | String_
| Struct | UnsafePointer.

(** Kinds of the types whose components the package never visits. *)
Inductive Scalar :=
| SBool | SInt | SInt8 | SInt16 | SInt32 | SInt64
| SUint | SUint8 | SUint16 | SUint32 | SUint64 | SUintptr
| SFloat32 | SFloat64 | SComplex64 | SComplex128
| SChan | SFunc | SInterface | SString | SUnsafePointer.

Definition scalarKind (k : Scalar) : Kind :=
  match k with
  | SBool => Bool | SInt => Int | SInt8 => Int8 | SInt16 => Int16
  | SInt32 => Int32 | SInt64 => Int64 | SUint => Uint | SUint8 => Uint8
  | SUint16 => Uint16 | SUint32 => Uint32 | SUint64 => Uint64
  | SUintptr => Uintptr | SFloat32 => Float32 | SFloat64 => Float64
  | SComplex64 => Complex64 | SComplex128 => Complex128
  | SChan => Chan | SFunc => Func | SInterface => Interface
  | SString => String_ | SUnsafePointer => UnsafePointer
  end.

(** [reflect.StructTag]: the key/value pairs of the tag string, in
    order. *)
Definition StructTag := list (string * string).

(** [tag.Get(key)]: the value of the first pair with that key, or the
    empty string. *)
Fixpoint Get (tag : StructTag) (key : string) : string :=
  match tag with
  | [] => EmptyString
  | (k, v) :: tag' => if String.eqb k key then v else Get tag' key
  end.

(** [reflect.StructField], without its type. *)
Record StructField := {
  Name : string;
  PkgPath : string;
  Tag : StructTag
}.

Definition IsExported (f : StructField) : bool :=
  String.eqb (PkgPath f) EmptyString.

(** Go types, finite (a type that contains itself through a pointer or a
    slice is not represented; the introspection does not terminate on
    one). *)
#[warnings="-register-all"] Inductive Type_ :=
| TScalar (k : Scalar)
| TMap (key elem : Type_)
| TPtr (elem : Type_)
| TSlice (elem : Type_)
| TArray (n : nat) (elem : Type_)
| TStruct (fields : list (StructField * Type_)).

Definition kindOf (t : Type_) : Kind :=
  match t with
  | TScalar k => scalarKind k
  | TMap _ _ => Map
  | TPtr _ => Ptr
  | TSlice _ => Slice
  | TArray _ _ => Array
  | TStruct _ => Struct
  end.

Definition Kind_eqb (a b : Kind) : bool :=
  match a, b with
  | Invalid, Invalid | Bool, Bool | Int, Int | Int8, Int8 | Int16, Int16
  | Int32, Int32 | Int64, Int64 | Uint, Uint | Uint8, Uint8
  | Uint16, Uint16 | Uint32, Uint32 | Uint64, Uint64 | Uintptr, Uintptr
  | Float32, Float32 | Float64, Float64 | Complex64, Complex64
  | Complex128, Complex128 | Array, Array | Chan, Chan | Func, Func
  | Interface, Interface | Map, Map | Ptr, Ptr | Slice, Slice
  | String_, String_ | Struct, Struct | UnsafePointer, UnsafePointer => true
  | _, _ => false
  end.

(** Nesting depth of a type. *)
Fixpoint depth (t : Type_) : nat :=
  match t with
  | TScalar _ => 1
  | TMap k e => S (Nat.max (depth k) (depth e))
  | TPtr e => S (depth e)
  | TSlice e => S (depth e)
  | TArray _ e => S (depth e)
  | TStruct fields =>
      S ((fix go (fs : list (StructField * Type_)) : nat :=
            match fs with
            | [] => O
            | (_, ft) :: fs' => Nat.max (depth ft) (go fs')
            end) fields)
  end.

End Reflect.

(** ** jsonmask.go: rules and the masker *)

Import Str Maskers Reflect.

(** [Rule] holds metadata for a single field of a structure. *)
Record Rule := {
  Path : string;
  Action : string;
  sliceLevel : nat
}.

(** [StructMaskRules] holds metadata for a structure. *)
Record StructMaskRules := { Rules : list Rule }.

Definition DefaultStructFieldTag : string := "mask".

Record JsonMaskerImpl := {
  tag : string;
  funcs : gmap string (string -> bytes)
}.

(** [jm.AddFunc(name, f)] *)
Definition AddFunc (jm : JsonMaskerImpl) (name : string) (f : string -> bytes)
  : JsonMaskerImpl :=
  {| tag := tag jm; funcs := <[name := f]> (funcs jm) |}.

Definition NewWithMaskTag (tag' : string) : JsonMaskerImpl :=
  let jm := {| tag := DefaultStructFieldTag; funcs := ∅ |} in
  let jm := AddFunc jm "upper" Upper in
  let jm := AddFunc jm "lower" Lower in
  let jm := AddFunc jm "initialChar" InitialChar in
  let jm := AddFunc jm "truncate" Truncate in
  let jm := AddFunc jm "null" Null in
  let jm := AddFunc jm "email" Email in
  let jm := AddFunc jm "first4" (closure (PrefixFn 4 false)) in
  let jm := AddFunc jm "zero" Zero in
  jm.

Definition New : JsonMaskerImpl := NewWithMaskTag DefaultStructFieldTag.

(** [joinPath] joins parent and child attribute names. *)
Definition joinPath (parent child : string) : string :=
  if String.eqb parent EmptyString then child else parent +:+ "." +:+ child.

(** A composite literal [Rule{Path: path, Action: action}]: the unexported
    [sliceLevel] keeps its zero value. Code outside the package can build
    a [Rule] in no other way. *)
Definition RuleLit (path action : string) : Rule :=
  {| Path := path; Action := action; sliceLevel := O |}.

Definition parseFieldTag (jm : JsonMaskerImpl) (field : StructField)
  : string * string :=
  let jsonAttr := Get (Tag field) "json" in
  let jsonAttr :=
    if String.eqb jsonAttr EmptyString
       || Ascii.eqb (byte_at jsonAttr 0) ","%char
    then Name field
    else match Index jsonAttr "," with
         | Some idx => take idx jsonAttr
         | None => jsonAttr
         end in
  (jsonAttr, Get (Tag field) (tag jm)).

(** [for val.Kind() == reflect.Ptr { ... }]: a nil pointer is replaced by
    the zero value of its element type, a non-nil one by its target. *)
Fixpoint derefPtr (t : Type_) : Type_ :=
  match t with
  | TPtr e => derefPtr e
  | _ => t
  end.

(** [for val.Kind() == reflect.Slice { val = reflect.New(val.Type().Elem()).Elem();
    jsonAttrName += ".#" }] *)
Fixpoint sliceLoop (val : Type_) (jsonAttrName : string) : Type_ * string :=
  match val with
  | TSlice e => sliceLoop e (jsonAttrName +:+ ".#")
  | _ => (val, jsonAttrName)
  end.

(** [val.Index(0)] or the zero value of the element type. *)
Definition elemOf (t : Type_) : Type_ :=
  match t with
  | TSlice e => e
  | TArray _ e => e
  | _ => t
  end.

Definition isComposite (k : Kind) : bool :=
  Kind_eqb k Ptr || Kind_eqb k Slice || Kind_eqb k Array
  || Kind_eqb k Struct || Kind_eqb k Map.

Fixpoint extractStructRules_fuel (fuel : nat) (jm : JsonMaskerImpl)
    (str : Type_) (parentAttr : string) {struct fuel} : list Rule :=
  match fuel with
  | O => []
  | S fuel' =>
      let s := derefPtr str in
      match s with
      | TStruct fields =>
          flat_map
            (fun f : StructField * Type_ =>
               let (sft, sfv) := f in
               if IsExported sft
               then extractStructFieldRules_fuel fuel' jm sfv sft parentAttr
               else [])
            fields
      | _ => []
      end
  end
with extractStructFieldRules_fuel (fuel : nat) (jm : JsonMaskerImpl)
    (val : Type_) (sf : StructField) (parentAttr : string) {struct fuel}
  : list Rule :=
  match fuel with
  | O => []
  | S fuel' =>
      let val := derefPtr val in
      let kind := kindOf val in
      let isSlice := Kind_eqb kind Slice || Kind_eqb kind Array in
      let val := if isSlice then elemOf val else val in
      let kind := kindOf val in
      let (jsonAttrName, jsonMaskTag) := parseFieldTag jm sf in
      if String.eqb jsonMaskTag "-" then
        [RuleLit (joinPath parentAttr jsonAttrName) jsonMaskTag]
      else if negb (isComposite kind) then
        if String.eqb jsonMaskTag EmptyString then []
        else [RuleLit (joinPath parentAttr jsonAttrName) jsonMaskTag]
      else
        let jsonAttrName :=
          if isSlice then joinPath parentAttr (jsonAttrName +:+ ".#")
          else jsonAttrName in
        match kindOf val with
        | Struct => extractStructRules_fuel fuel' jm val jsonAttrName
        | Slice =>
            let (val', jsonAttrName') := sliceLoop val jsonAttrName in
            extractStructRules_fuel fuel' jm val' jsonAttrName'
        | _ =>
            [RuleLit (joinPath parentAttr jsonAttrName) (Get (Tag sf) (tag jm))]
        end
  end.

(** The recursion goes through at most two calls per nesting level. *)
Definition extractStructRules (jm : JsonMaskerImpl) (str : Type_)
    (parentAttr : string) : list Rule :=
  extractStructRules_fuel (2 * depth str) jm str parentAttr.

Definition extractStructFieldRules (jm : JsonMaskerImpl) (val : Type_)
    (sf : StructField) (parentAttr : string) : list Rule :=
  extractStructFieldRules_fuel (S (2 * depth val)) jm val sf parentAttr.

(** [ParseStruct] extracts the rules of a structure and then sets every
    rule's [sliceLevel]. *)
Definition ParseStruct (jm : JsonMaskerImpl) (src : Type_) : StructMaskRules :=
  {| Rules :=
       List.map
         (fun r => {| Path := Path r; Action := Action r;
                      sliceLevel := Count (Path r) ".#" |})
         (extractStructRules jm src "") |}.

(** ** The document primitives of gjson and sjson *)

Module gjson.
(** What the package reads of a [gjson.Result]: [Exists()], [Raw] and
    [Int()]. *)
Record Result := { Exists : bool; Raw : string; Int : Z }.
End gjson.

(** Go error values: those made by [errors.New] in this package, and those
    of sjson (of its own type [*errorType]), each with its message. *)
Inductive error :=
| errors_New (msg : string)
| sjson_error (msg : string).

(** The library functions; an sjson error is given by its message. *)
Class JsonLib := {
  (** [gjson.GetBytes(json, path)] *)
  GetBytes : bytes -> string -> gjson.Result;
  (** [sjson.SetRawBytes(json, path, value)] *)
  SetRawBytes : bytes -> string -> bytes -> bytes * option string;
  (** [sjson.DeleteBytes(json, path)] *)
  DeleteBytes : bytes -> string -> bytes * option string
}.

(** The result of an sjson call as a [([]byte, error)] pair. *)
Definition sjsonResult (r : bytes * option string) : bytes * option error :=
  (fst r, option_map sjson_error (snd r)).

(** ** jsonmask.go: applying rules *)

(** [for i := first; i < first + count; i++ { data, err = step(i, data);
    if err != nil { return nil, err } }; return data, nil] *)
Fixpoint forRange (step : nat -> bytes -> bytes * option error)
    (count i : nat) (data : bytes) : bytes * option error :=
  match count with
  | O => (data, None)
  | S count' =>
      match step i data with
      | (data', None) => forRange step count' (S i) data'
      | (_, Some err) => (EmptyString, Some err)
      end
  end.

Section Engine.

Context {lib : JsonLib}.
Variable jm : JsonMaskerImpl.

Definition maskSimplePath (data : bytes) (path action : string)
  : bytes * option error :=
  if String.eqb action "-" then sjsonResult (DeleteBytes data path)
  else
    match funcs jm !! action with
    | None => (data, None)
    | Some maskFunc =>
        let value := GetBytes data path in
        let maskedValue := maskFunc (gjson.Raw value) in
        sjsonResult (SetRawBytes data path maskedValue)
    end.

(** One iteration of the loop of [rangeOverArray]; [recur] is the
    recursive call. An iteration that ends in [continue] leaves [data]
    and the nil [err] as they are. *)
Definition rangeStep
    (recur : bytes -> string -> string -> bytes * option error)
    (rule : Rule) (arrPath arrItemPath : string)
    (subArrIdx : option nat) (subArrPath subArrItemPath : string)
    (i : nat) (data : bytes) : bytes * option error :=
  let path := ReplaceAll arrPath "#" (Itoa i) in
  if String.eqb (Action rule) "-" then
    sjsonResult (DeleteBytes data (path +:+ arrItemPath))
  else
    match subArrIdx with
    | None =>
        let value := GetBytes data (path +:+ arrItemPath) in
        match funcs jm !! Action rule with
        | None => (data, None)
        | Some maskFunc =>
            let maskedValue := maskFunc (gjson.Raw value) in
            sjsonResult (SetRawBytes data (path +:+ arrItemPath) maskedValue)
        end
    | Some _ => recur data (path +:+ subArrPath) subArrItemPath
    end.

Definition rangeBody
    (recur : bytes -> string -> string -> bytes * option error)
    (data : bytes) (rule : Rule) (arrPath arrItemPath : string)
  : bytes * option error :=
  let arr := GetBytes data arrPath in
  if negb (gjson.Exists arr) then
    (data, Some (errors_New "json array not found"))
  else
    let subArrIdx := Index arrItemPath ".#" in
    let subArrPath :=
      match subArrIdx with
      | Some k => take (k + 2) arrItemPath
      | None => EmptyString
      end in
    let subArrItemPath :=
      match subArrIdx with
      | Some k => drop (k + 2) arrItemPath
      | None => EmptyString
      end in
    forRange
      (rangeStep recur rule arrPath arrItemPath subArrIdx subArrPath
         subArrItemPath)
      (Z.to_nat (gjson.Int arr)) O data.

Fixpoint rangeOverArray_fuel (fuel : nat) (data : bytes) (rule : Rule)
    (arrPath arrItemPath : string) : bytes * option error :=
  match fuel with
  | O => (data, None)
  | S fuel' =>
      rangeBody (fun d p q => rangeOverArray_fuel fuel' d rule p q)
        data rule arrPath arrItemPath
  end.

(** Each recursive call is on a strictly shorter [arrItemPath]. *)
Definition rangeOverArray (data : bytes) (rule : Rule)
    (arrPath arrItemPath : string) : bytes * option error :=
  rangeOverArray_fuel (S (String.length arrItemPath)) data rule
    arrPath arrItemPath.

Fixpoint mask (data : bytes) (rules : list Rule) : bytes * option error :=
  match rules with
  | [] => (data, None)
  | rule :: rules' =>
      let next (r : bytes * option error) :=
        match r with
        | (_, Some err) => (EmptyString, Some err)
        | (data', None) => mask data' rules'
        end in
      if Nat.eqb (sliceLevel rule) O then
        next (maskSimplePath data (Path rule) (Action rule))
      else
        match Index (Path rule) ".#" with
        | None => (EmptyString, Some (errors_New "invalid json array path"))
        | Some idx =>
            next (rangeOverArray data rule (take (idx + 2) (Path rule))
                    (drop (idx + 2) (Path rule)))
        end
  end.

(** [Mask] applies masking to JSON based on the given rules. *)
Definition Mask (data : bytes) (smr : StructMaskRules)
  : bytes * option error :=
  mask data (Rules smr).

End Engine.

(** ** A reference instance of the document primitives *)

(** Modelled from the spec: the document get/set/delete collaborator of its
    section 6, which the package takes from the libraries gjson and sjson;
    their sources are not part of the package. The instance follows the
    documented behaviour of the two libraries on compact documents (no
    white space, no escapes in keys) and on paths whose segments are keys,
    decimal indices or [#]: a value that exists is replaced or deleted in
    place, a missing key is added to its object, deleting a missing
    address leaves the document as it is. It is used to evaluate the engine
    on concrete documents. A leaf keeps the exact text of its value. *)

Module RefJson.

#[warnings="-register-all"] Inductive json :=
| JRaw (raw : string)
| JArr (items : list json)
| JObj (members : list (string * json)).

Definition backslash : ascii := "092"%char.

(** The text after an opening quote: the body of the string and what
    follows its closing quote. *)
Fixpoint scanString (s : string) : option (string * string) :=
  match s with
  | EmptyString => None
  | String c s' =>
      if Ascii.eqb c dquote then Some (EmptyString, s')
      else if Ascii.eqb c backslash then
        match s' with
        | EmptyString => None
        | String d s'' =>
            match scanString s'' with
            | Some (b, r) => Some (String c (String d b), r)
            | None => None
            end
        end
      else
        match scanString s' with
        | Some (b, r) => Some (String c b, r)
        | None => None
        end
  end.

(** A number or a literal: the text up to the next [,], [}] or []]. *)
Fixpoint scanToken (s : string) : string * string :=
  match s with
  | EmptyString => (EmptyString, EmptyString)
  | String c s' =>
      if Ascii.eqb c ","%char || Ascii.eqb c "]"%char || Ascii.eqb c "}"%char
      then (EmptyString, s)
      else let (t, r) := scanToken s' in (String c t, r)
  end.

Definition quote (s : string) : string :=
  String dquote (s +:+ String dquote EmptyString).

Fixpoint parseValue (fuel : nat) (s : string) : option (json * string) :=
  match fuel with
  | O => None
  | S fuel' =>
      match s with
      | EmptyString => None
      | String c s' =>
          if Ascii.eqb c "{"%char then
            match parseMembers fuel' s' with
            | Some (ms, r) => Some (JObj ms, r)
            | None => None
            end
          else if Ascii.eqb c "["%char then
            match parseItems fuel' s' with
            | Some (items, r) => Some (JArr items, r)
            | None => None
            end
          else if Ascii.eqb c dquote then
            match scanString s' with
            | Some (b, r) => Some (JRaw (quote b), r)
            | None => None
            end
          else
            let (t, r) := scanToken s in
            if String.eqb t EmptyString then None else Some (JRaw t, r)
      end
  end
with parseItems (fuel : nat) (s : string) : option (list json * string) :=
  match fuel with
  | O => None
  | S fuel' =>
      match s with
      | String "]" r => Some ([], r)
      | _ =>
          match parseValue fuel' s with
          | Some (v, String "," r) =>
              match parseItems fuel' r with
              | Some (vs, r') => Some (v :: vs, r')
              | None => None
              end
          | Some (v, String "]" r) => Some ([v], r)
          | _ => None
          end
      end
  end
with parseMembers (fuel : nat) (s : string)
  : option (list (string * json) * string) :=
  match fuel with
  | O => None
  | S fuel' =>
      match s with
      | String "}" r => Some ([], r)
      | String c s' =>
          if Ascii.eqb c dquote then
            match scanString s' with
            | Some (k, String ":" r) =>
                match parseValue fuel' r with
                | Some (v, String "," r') =>
                    match parseMembers fuel' r' with
                    | Some (ms, r'') => Some ((k, v) :: ms, r'')
                    | None => None
                    end
                | Some (v, String "}" r') => Some ([(k, v)], r')
                | _ => None
                end
            | _ => None
            end
          else None
      | EmptyString => None
      end
  end.

Definition parse (s : bytes) : option json :=
  match parseValue (2 * String.length s + 2) s with
  | Some (j, EmptyString) => Some j
  | _ => None
  end.

Fixpoint joinComma (l : list string) : string :=
  match l with
  | [] => EmptyString
  | [x] => x
  | x :: l' => x +:+ "," +:+ joinComma l'
  end.

Fixpoint print (j : json) : bytes :=
  match j with
  | JRaw r => r
  | JArr items => "[" +:+ joinComma (List.map print items) +:+ "]"
  | JObj ms =>
      "{" +:+
      joinComma
        (List.map (fun m : string * json =>
                     quote (fst m) +:+ ":" +:+ print (snd m)) ms)
      +:+ "}"
  end.

(** Path segments, separated by dots. *)
Fixpoint splitPath (p : string) : list string :=
  match p with
  | EmptyString => [EmptyString]
  | String c p' =>
      if Ascii.eqb c "."%char then EmptyString :: splitPath p'
      else match splitPath p' with
           | seg :: segs => String c seg :: segs
           | [] => [String c EmptyString]
           end
  end.

Definition isDigit (c : ascii) : bool :=
  ((48 <=? nat_of_ascii c) && (nat_of_ascii c <=? 57))%nat.

Fixpoint allDigits (s : string) : bool :=
  match s with
  | EmptyString => true
  | String c s' => isDigit c && allDigits s'
  end.

Fixpoint digitsValue (s : string) (acc : nat) : nat :=
  match s with
  | EmptyString => acc
  | String c s' => digitsValue s' (10 * acc + (nat_of_ascii c - 48))%nat
  end.

(** A segment that is a decimal index. *)
Definition asIndex (seg : string) : option nat :=
  if negb (String.eqb seg EmptyString) && allDigits seg
  then Some (digitsValue seg O) else None.

Fixpoint lookupKey (k : string) (ms : list (string * json)) : option json :=
  match ms with
  | [] => None
  | (k', v) :: ms' => if String.eqb k k' then Some v else lookupKey k ms'
  end.

Definition notFound : gjson.Result :=
  {| gjson.Exists := false; gjson.Raw := EmptyString; gjson.Int := 0 |}.

Definition intOfRaw (r : string) : Z :=
  if negb (String.eqb r EmptyString) && allDigits r
  then Z.of_nat (digitsValue r O)
  else if String.eqb r "true" then 1 else 0.

Definition found (j : json) : gjson.Result :=
  {| gjson.Exists := true; gjson.Raw := print j;
     gjson.Int := match j with JRaw r => intOfRaw r | _ => 0 end |}.

Fixpoint getTree (segs : list string) (j : json) : gjson.Result :=
  match segs with
  | [] => found j
  | seg :: rest =>
      match j with
      | JObj ms =>
          match lookupKey seg ms with
          | Some v => getTree rest v
          | None => notFound
          end
      | JArr items =>
          if String.eqb seg "#" then
            match rest with
            | [] =>
                {| gjson.Exists := true;
                   gjson.Raw := Itoa (length items);
                   gjson.Int := Z.of_nat (length items) |}
            | _ =>
                let rs := List.filter gjson.Exists
                            (List.map (getTree rest) items) in
                {| gjson.Exists := true;
                   gjson.Raw :=
                     "[" +:+ joinComma (List.map gjson.Raw rs) +:+ "]";
                   gjson.Int := 0 |}
            end
          else
            match asIndex seg with
            | Some n =>
                match nth_error items n with
                | Some v => getTree rest v
                | None => notFound
                end
            | None => notFound
            end
      | JRaw _ => notFound
      end
  end.

(** What sjson builds for the segments that are missing. *)
Fixpoint build (segs : list string) (raw : string) : json :=
  match segs with
  | [] => JRaw raw
  | seg :: rest =>
      match asIndex seg with
      | Some n => JArr (repeat (JRaw "null") n ++ [build rest raw])
      | None =>
          if String.eqb seg "-1" then JArr [build rest raw]
          else JObj [(seg, build rest raw)]
      end
  end.

Fixpoint replaceKey (k : string) (f : json -> json + string)
    (ms : list (string * json)) : option (list (string * json) + string) :=
  match ms with
  | [] => None
  | (k', v) :: ms' =>
      if String.eqb k k' then
        Some match f v with
             | inl v' => inl ((k', v') :: ms')
             | inr e => inr e
             end
      else
        match replaceKey k f ms' with
        | Some (inl ms'') => Some (inl ((k', v) :: ms''))
        | Some (inr e) => Some (inr e)
        | None => None
        end
  end.

Fixpoint replaceNth (n : nat) (f : json -> json + string)
    (items : list json) : option (list json + string) :=
  match items, n with
  | [], _ => None
  | v :: items', O =>
      Some match f v with
           | inl v' => inl (v' :: items')
           | inr e => inr e
           end
  | v :: items', S n' =>
      match replaceNth n' f items' with
      | Some (inl items'') => Some (inl (v :: items''))
      | Some (inr e) => Some (inr e)
      | None => None
      end
  end.

(** Set: an existing value is replaced in place; a missing key is added
    at the end of its object; a missing index is added at the end of its
    array after [null] padding. *)
Fixpoint setTree (segs : list string) (raw : string) (j : json)
  : json + string :=
  match segs with
  | [] => inl (JRaw raw)
  | seg :: rest =>
      match j with
      | JObj ms =>
          match replaceKey seg (setTree rest raw) ms with
          | Some (inl ms') => inl (JObj ms')
          | Some (inr e) => inr e
          | None => inl (JObj (ms ++ [(seg, build rest raw)]))
          end
      | JArr items =>
          match asIndex seg with
          | Some n =>
              match replaceNth n (setTree rest raw) items with
              | Some (inl items') => inl (JArr items')
              | Some (inr e) => inr e
              | None =>
                  inl (JArr (items
                             ++ repeat (JRaw "null") (n - length items)
                             ++ [build rest raw]))
              end
          | None =>
              if String.eqb seg "-1"
              then inl (JArr (items ++ [build rest raw]))
              else inr "cannot set array element for non-numeric key"
          end
      | JRaw _ => inl (build segs raw)
      end
  end.

Fixpoint removeKey (k : string) (ms : list (string * json))
  : option (list (string * json)) :=
  match ms with
  | [] => None
  | (k', v) :: ms' =>
      if String.eqb k k' then Some ms'
      else match removeKey k ms' with
           | Some ms'' => Some ((k', v) :: ms'')
           | None => None
           end
  end.

Fixpoint removeNth (n : nat) (items : list json) : option (list json) :=
  match items, n with
  | [], _ => None
  | _ :: items', O => Some items'
  | v :: items', S n' =>
      match removeNth n' items' with
      | Some items'' => Some (v :: items'')
      | None => None
      end
  end.

Definition liftOpt (f : json -> option json) (v : json) : json + string :=
  match f v with
  | Some v' => inl v'
  | None => inr "no change"
  end.

(** Delete: [None] when the address is missing (sjson then returns the
    document as it is). *)
Fixpoint delTree (segs : list string) (j : json) : option json :=
  match segs with
  | [] => None
  | seg :: rest =>
      match rest with
      | [] =>
          match j with
          | JObj ms => option_map JObj (removeKey seg ms)
          | JArr items =>
              match asIndex seg with
              | Some n => option_map JArr (removeNth n items)
              | None =>
                  if String.eqb seg "-1" && negb (Nat.eqb (length items) O)
                  then Some (JArr (removelast items))
                  else None
              end
          | JRaw _ => None
          end
      | _ :: _ =>
          match j with
          | JObj ms =>
              match replaceKey seg (liftOpt (delTree rest)) ms with
              | Some (inl ms') => Some (JObj ms')
              | _ => None
              end
          | JArr items =>
              match asIndex seg with
              | Some n =>
                  match replaceNth n (liftOpt (delTree rest)) items with
                  | Some (inl items') => Some (JArr items')
                  | _ => None
                  end
              | None => None
              end
          | JRaw _ => None
          end
      end
  end.

(** sjson's simple paths: no [|], [#], [@], [*] or [?]. *)
Definition isSimpleChar (c : ascii) : bool :=
  negb (Ascii.eqb c "|"%char || Ascii.eqb c "#"%char || Ascii.eqb c "@"%char
        || Ascii.eqb c "*"%char || Ascii.eqb c "?"%char).

Fixpoint isSimplePath (p : string) : bool :=
  match p with
  | EmptyString => true
  | String c p' => isSimpleChar c && isSimplePath p'
  end.

Definition getBytes (data : bytes) (path : string) : gjson.Result :=
  match parse data with
  | Some j => getTree (splitPath path) j
  | None => notFound
  end.

Definition outside : string := "outside the reference instance".

Definition setRawBytes (data : bytes) (path : string) (value : bytes)
  : bytes * option string :=
  if String.eqb path EmptyString
  then (data, Some "path cannot be empty")
  else if negb (isSimplePath path) then (EmptyString, Some outside)
  else
    match parse data with
    | Some j =>
        match setTree (splitPath path) value j with
        | inl j' => (print j', None)
        | inr e => (EmptyString, Some e)
        end
    | None => (EmptyString, Some outside)
    end.

Definition deleteBytes (data : bytes) (path : string)
  : bytes * option string :=
  if String.eqb path EmptyString
  then (data, Some "path cannot be empty")
  else if negb (isSimplePath path)
  then (data, Some "cannot delete value from a complex path")
  else
    match parse data with
    | Some j =>
        match delTree (splitPath path) j with
        | Some j' => (print j', None)
        | None => (data, None)
        end
    | None => (EmptyString, Some outside)
    end.

#[export] Instance lib : JsonLib := {
  GetBytes := getBytes;
  SetRawBytes := setRawBytes;
  DeleteBytes := deleteBytes
}.

End RefJson.

(** ** Notions used to state the properties *)

(** An index found in a text that follows [n] other bytes. *)
Definition shift (n : nat) (o : option nat) : option nat :=
  option_map (Nat.add n) o.

(** The rule for element [i] of the array at [pre]: the first wildcard of
    [pre.#suf] replaced by the index. A deletion is applied to the
    resulting address as it is; otherwise the wildcards left in [suf]
    remain to be expanded. *)
Definition elementRule (rule : Rule) (pre suf : string) (i : nat) : Rule :=
  {| Path := pre +:+ "." +:+ Itoa i +:+ suf;
     Action := Action rule;
     sliceLevel :=
       if String.eqb (Action rule) "-" then O else Count suf ".#" |}.

Section Resolve.

Context {lib : JsonLib}.

(** Every array that the expansion of [arrPath] and [arrItemPath] looks up
    in [data] exists. *)
Fixpoint arraysExist_fuel (fuel : nat) (data : bytes)
    (arrPath arrItemPath : string) : bool :=
  match fuel with
  | O => true
  | S fuel' =>
      let arr := GetBytes data arrPath in
      gjson.Exists arr &&
      match Index arrItemPath ".#" with
      | None => true
      | Some k =>
          forallb
            (fun i =>
               arraysExist_fuel fuel' data
                 (ReplaceAll arrPath "#" (Itoa i) +:+ take (k + 2) arrItemPath)
                 (drop (k + 2) arrItemPath))
            (seq O (Z.to_nat (gjson.Int arr)))
      end
  end.

Definition arraysExist (data : bytes) (arrPath arrItemPath : string) : bool :=
  arraysExist_fuel (S (String.length arrItemPath)) data arrPath arrItemPath.

(** A rule that can be applied to [data] without an expansion error: it
    has no wildcard level, or its path has a wildcard and all arrays of
    its expansion exist. *)
Definition resolves (data : bytes) (rule : Rule) : bool :=
  Nat.eqb (sliceLevel rule) O ||
  match Index (Path rule) ".#" with
  | None => false
  | Some idx =>
      arraysExist data (take (idx + 2) (Path rule))
        (drop (idx + 2) (Path rule))
  end.

End Resolve.

(** The rule for element [i] as C1 states it: the index in place of the
    wildcard, at the literal position of the first wildcard of the path,
    and what is left of the path expanded in turn whatever the action, so
    that the action reaches concrete addresses only. *)
Definition concreteRule (rule : Rule) (pre suf : string) (i : nat) : Rule :=
  {| Path := pre +:+ "." +:+ Itoa i +:+ suf;
     Action := Action rule;
     sliceLevel := Count suf ".#" |}.

(** C1 as it is stated, for a rule whose first wildcard follows [pre] and
    a document with [N] elements at [pre.#]. *)
Definition expansionClaim {lib : JsonLib} (jm : JsonMaskerImpl)
    (data : bytes) (rule : Rule) (pre suf : string) (N : nat) : Prop :=
  (0 < sliceLevel rule)%nat ->
  Path rule = pre +:+ ".#" +:+ suf ->
  Index (Path rule) ".#" = Some (String.length pre) ->
  gjson.Exists (GetBytes data (pre +:+ ".#")) = true ->
  gjson.Int (GetBytes data (pre +:+ ".#")) = Z.of_nat N ->
  mask jm data [rule]
  = mask jm data (List.map (concreteRule rule pre suf) (seq O N)).

(** A rule whose action is neither the deletion sentinel nor registered. *)
Definition unregistered (jm : JsonMaskerImpl) (rule : Rule) : Prop :=
  Action rule <> "-" /\ funcs jm !! Action rule = None.

(** What [mask] does with the result of applying one rule. *)
Definition andThen (r : bytes * option error)
    (k : bytes -> bytes * option error) : bytes * option error :=
  match r with
  | (_, Some err) => (EmptyString, Some err)
  | (data, None) => k data
  end.

(** The errors of a result satisfy [P]. *)
Definition errIn (P : error -> Prop) (r : bytes * option error) : Prop :=
  match snd r with
  | Some e => P e
  | None => True
  end.

(** The errors that the engine passes on when every rule with a wildcard
    level has a wildcard in its path: the one of [rangeOverArray], and
    those of sjson. *)
Definition expansionError (e : error) : Prop :=
  e = errors_New "json array not found" \/ exists msg, e = sjson_error msg.

(** The wire name of a field and its rule tag. *)
Definition wireName (jm : JsonMaskerImpl) (sf : StructField) : string :=
  fst (parseFieldTag jm sf).

Definition ruleTag (jm : JsonMaskerImpl) (sf : StructField) : string :=
  snd (parseFieldTag jm sf).

(** *** Records on which the paths of [ParseStruct] are pairwise distinct *)

Fixpoint nodupb (l : list string) : bool :=
  match l with
  | [] => true
  | x :: l' => negb (existsb (String.eqb x) l') && nodupb l'
  end.

(** A wire name that is one path segment: not empty and without dot. *)
Definition plainName (n : string) : bool :=
  negb (String.eqb n EmptyString) && negb (mem "."%char n).

(** [regular_fuel] follows the introspection of a record visited under a
    prefix that is empty ([top]) or not, and [regularField_fuel] that of one
    of its fields. In each record the exported fields have pairwise
    distinct plain wire names. A field that is itself a record, and a field
    that is an array of pointers, arrays or maps, are accepted in the
    top-level record only: below it the introspection joins their
    paths to the prefix in another way than for the other fields. *)
Fixpoint regular_fuel (fuel : nat) (jm : JsonMaskerImpl) (top : bool)
    (str : Type_) {struct fuel} : bool :=
  match fuel with
  | O => false
  | S fuel' =>
      match derefPtr str with
      | TStruct fields =>
          let exported :=
            List.filter (fun f : StructField * Type_ => IsExported (fst f))
              fields in
          nodupb (List.map (fun f => wireName jm (fst f)) exported) &&
          forallb
            (fun f : StructField * Type_ =>
               plainName (wireName jm (fst f)) &&
               regularField_fuel fuel' jm top (snd f) (fst f))
            exported
      | _ => true
      end
  end
with regularField_fuel (fuel : nat) (jm : JsonMaskerImpl) (top : bool)
    (val : Type_) (sf : StructField) {struct fuel} : bool :=
  match fuel with
  | O => false
  | S fuel' =>
      let val := derefPtr val in
      let kind := kindOf val in
      let isSlice := Kind_eqb kind Slice || Kind_eqb kind Array in
      let val := if isSlice then elemOf val else val in
      if String.eqb (ruleTag jm sf) "-" then true
      else if negb (isComposite (kindOf val)) then true
      else
        match kindOf val with
        | Struct => (isSlice || top) && regular_fuel fuel' jm false val
        | Slice =>
            regular_fuel fuel' jm false (fst (sliceLoop val EmptyString))
        | _ => negb isSlice || top
        end
  end.

Definition regular (jm : JsonMaskerImpl) (src : Type_) : bool :=
  regular_fuel (2 * depth src) jm true src.

(** A path under the prefix [p] whose next segment is [n]. *)
Definition headed (p n q : string) : Prop :=
  exists r, q = joinPath p n +:+ r /\
            (r = EmptyString \/ exists r', r = "." +:+ r').

(** ** Example records and documents *)

Module Examples.

(** An exported field with its [json] and [mask] tags (absent when
    empty). *)
Definition field (name json mask : string) : StructField :=
  {| Name := name; PkgPath := EmptyString;
     Tag := (if String.eqb json EmptyString then [] else [("json", json)])
            ++ (if String.eqb mask EmptyString then [] else [("mask", mask)]) |}.

(** An unexported field of package [jsonmask_test]. *)
Definition hidden (name mask : string) : StructField :=
  {| Name := name; PkgPath := "jsonmask_test";
     Tag := if String.eqb mask EmptyString then [] else [("mask", mask)] |}.

(** [TestStructMaskAttr] and [TestHiddenAttr] of the package tests. *)
Definition TestStructMaskAttr : Type_ :=
  TStruct [ (field "ID" ",omitempty" "", TScalar SInt);
            (field "Currency" "currency" "upper", TScalar SString);
            (field "MinorUnits" "minorUnits" "zero", TScalar SInt64);
            (hidden "flag" "", TScalar SBool) ].

Definition TestHiddenAttr : Type_ :=
  TStruct [ (field "ID" "id" "", TScalar SInt);
            (field "Amount" "amount" "-", TScalar SInt64) ].

(** [TestStruct.Matrix] of the package tests. *)
Definition Matrix : Type_ :=
  TStruct [ (field "ID" "id" "", TScalar SInt);
            (field "Items" "items" "", TSlice (TSlice TestStructMaskAttr));
            (field "HiddenItems" "hiddenItems" "-",
               TSlice (TSlice TestHiddenAttr)) ].

(** A slice of records whose field has an action that is not
    registered. *)
Definition Untagged : Type_ :=
  TStruct [ (field "Items" "items" "",
               TSlice (TStruct [ (field "Currency" "currency" "hash",
                                    TScalar SString) ])) ].

(** Two fields with the same wire name. *)
Definition SameName : Type_ :=
  TStruct [ (field "A" "x" "upper", TScalar SString);
            (field "B" "x" "lower", TScalar SString) ].

(** [TestStruct.Basic] of the package tests, without its embedded
    fields. *)
Definition Basic : Type_ :=
  TStruct [ (field "ID" "id" "", TScalar SInt);
            (field "FirstName" "firstName" "initialChar", TScalar SString);
            (field "LastName" "lastName" "upper", TScalar SString);
            (field "BirthDate" "birthDate" "-", TScalar SString);
            (field "Embedded" "embedded" "",
               TStruct [ (field "Value" "value" "zero", TScalar SInt) ]);
            (field "Items" "items" "", TSlice TestStructMaskAttr) ].

Definition TestEmbeddedStruct : Type_ :=
  TStruct [ (field "Value" "value" "", TScalar SInt) ].

(** [TestStruct.Basic] of the package tests, with its embedded fields. *)
Definition TestBasic : Type_ :=
  TStruct [ (field "ID" "id" "", TScalar SInt);
            (field "FirstName" "firstName" "initialChar", TScalar SString);
            (field "LastName" "lastName" "upper", TScalar SString);
            (field "BirthDate" "birthDate" "-", TScalar SString);
            (field "TestEmbeddedStruct" "embedded" "", TestEmbeddedStruct);
            (field "HiddenEmbedded" "hiddenEmbedded" "-", TestEmbeddedStruct);
            (field "TestHiddenAttr" "hiddenAttr" "-", TestHiddenAttr) ].

(** [TestStruct.SlicePtr] of the package tests. *)
Definition TestSlicePtr : Type_ :=
  TStruct [ (field "ID" "id" "", TScalar SInt);
            (field "Items" "items" "", TPtr (TSlice TestStructMaskAttr));
            (field "HiddenItems" "hiddenItems" "-",
               TPtr (TSlice TestHiddenAttr)) ].

(** A record nested in a record nested in a record: the two rules get
    the same path. *)
Definition Nested : Type_ :=
  TStruct [ (field "A" "a" "",
               TStruct [ (field "A" "a" "",
                            TStruct [ (field "B" "b" "upper",
                                         TScalar SString) ]);
                         (field "B" "b" "lower", TScalar SString) ]) ].

(** A record whose only field is unexported and tagged for deletion. *)
Definition Secret : Type_ :=
  TStruct [ (hidden "secret" "-", TScalar SString) ].

End Examples.

(** ** Notions used to state the further properties *)

(** *** Notions for the maskers *)

(** The positions that [Email] overwrites, [atIdx] being the index of the
    first [@] and [dotIdx] that of the last dot: the local part but its
    first byte and, when it has more than two bytes, its last one; the
    domain after its first byte, up to the last dot. *)
Definition emailMasked (atIdx dotIdx j : Z) : bool :=
  ((2 <=? j) && (j <? (if atIdx - 1 <=? 2 then atIdx else atIdx - 1)))
  || ((atIdx + 2 <=? j) && (j <? dotIdx)).

(** [atIdx] is the index of the first [@] from index 1 on, and [dotIdx]
    that of the last dot before the closing quote. *)
Definition emailAt (email : string) (atIdx : Z) : Prop :=
  1 <= atIdx < len email - 1 /\ byte_at email atIdx = "@"%char /\
  forall j, 1 <= j < atIdx -> byte_at email j <> "@"%char.

Definition emailDot (email : string) (atIdx dotIdx : Z) : Prop :=
  atIdx < dotIdx <= len email - 2 /\ byte_at email dotIdx = "."%char /\
  forall j, dotIdx < j <= len email - 2 -> byte_at email j <> "."%char.

(** Text enclosed in double quotes. *)
Definition quoted (s : string) : Prop :=
  2 <= len s /\ byte_at s 0 = dquote /\ byte_at s (len s - 1) = dquote.

(** Text of bytes below 128; [bytes.ToUpper] and [bytes.ToLower] then act
    byte by byte. *)
Fixpoint isASCII (s : string) : bool :=
  match s with
  | EmptyString => true
  | String c s' => (nat_of_ascii c <? 128)%nat && isASCII s'
  end.

(** *** Notions for the introspection *)

(** A field whose type, behind its pointers, is a scalar or a slice or
    array of scalars. *)
Definition isLeaf (ft : Type_) : bool :=
  match derefPtr ft with
  | TScalar _ | TSlice (TScalar _) | TArray _ (TScalar _) => true
  | _ => false
  end.

(** The type of [k] nested slices of [t]. *)
Fixpoint slices (k : nat) (t : Type_) : Type_ :=
  match k with
  | O => t
  | S k' => TSlice (slices k' t)
  end.

(** [k] wildcard segments. *)
Fixpoint wildcards (k : nat) : string :=
  match k with
  | O => EmptyString
  | S k' => ".#" +:+ wildcards k'
  end.

(** The rule of a tagged field at its own address. *)
Definition fieldRule (jm : JsonMaskerImpl) (parentAttr : string)
    (sf : StructField) : Rule :=
  RuleLit (joinPath parentAttr (wireName jm sf)) (ruleTag jm sf).

(** The exported fields that carry a rule tag. *)
Definition tagged (jm : JsonMaskerImpl) (sf : StructField) : bool :=
  IsExported sf && negb (String.eqb (ruleTag jm sf) EmptyString).

(** A record with a field without rule tag, a slice of scalars, a pointer
    to a scalar without [json] tag, and an unexported field. *)
Definition flatFields : list (StructField * Type_) :=
  [ (Examples.field "ID" ",omitempty" "", TScalar SInt);
    (Examples.field "Tags" "tags" "upper", TSlice (TScalar SString));
    (Examples.field "Note" "" "null", TPtr (TScalar SString));
    (Examples.hidden "flag" "zero", TScalar SBool) ].

(** *** Notions for the wildcard level *)

(** The number of wildcard segments of an address: those of its segments,
    separated by dots, that are [#]. *)
Definition wildcardSegments (path : string) : nat :=
  length (List.filter (String.eqb "#") (RefJson.splitPath path)).

(** The number of [#] in a text, and the number of places where [.#]
    begins. *)
Fixpoint numHash (s : string) : nat :=
  match s with
  | EmptyString => O
  | String c s' => (if Ascii.eqb c "#"%char then 1 else 0) + numHash s'
  end.

Fixpoint dotHashes (s : string) : nat :=
  match s with
  | EmptyString => O
  | String c s' =>
      (if Ascii.eqb c "."%char && String.prefix "#" s' then 1 else 0)
      + dotHashes s'
  end.

(** Every [#] of the text is a whole segment and follows a dot;
    [prevDot] tells whether a dot precedes the text. *)
Fixpoint hashSegments (prevDot : bool) (s : string) : bool :=
  match s with
  | EmptyString => true
  | String c s' =>
      if Ascii.eqb c "#"%char
      then prevDot
           && match s' with
              | EmptyString => true
              | String d _ => Ascii.eqb d "."%char
              end
           && hashSegments false s'
      else hashSegments (Ascii.eqb c "."%char) s'
  end.

(** A property of the fields of all records of a type. *)
Fixpoint allFields (P : StructField -> bool) (t : Type_) : bool :=
  match t with
  | TScalar _ => true
  | TMap k e => allFields P k && allFields P e
  | TPtr e => allFields P e
  | TSlice e => allFields P e
  | TArray _ e => allFields P e
  | TStruct fields =>
      (fix go (fs : list (StructField * Type_)) : bool :=
         match fs with
         | [] => true
         | (sf, ft) :: fs' => P sf && allFields P ft && go fs'
         end) fields
  end.

(** No wire name of the type holds a [#]. *)
Definition hashFree (jm : JsonMaskerImpl) (t : Type_) : bool :=
  allFields (fun sf => negb (mem "#"%char (wireName jm sf))) t.

(** *** Notions for the deletion tag *)



(** * Properties *)

(** ** Facts on byte strings *)

Module StrFacts.
Import Str.

Lemma append_assoc (a b c : string) : (a +:+ b) +:+ c = a +:+ (b +:+ c).
Proof. induction a as [|x a IH]; simpl; [reflexivity | now rewrite IH]. Qed.

Lemma append_nil_r (a : string) : a +:+ EmptyString = a.
Proof. induction a as [|x a IH]; simpl; [reflexivity | now rewrite IH]. Qed.

Lemma length_append (a b : string) :
  String.length (a +:+ b) = (String.length a + String.length b)%nat.
Proof. induction a as [|x a IH]; simpl; [reflexivity | now rewrite IH]. Qed.

Lemma length_drop (n : nat) (s : string) :
  String.length (drop n s) = (String.length s - n)%nat.
Proof.
  revert s; induction n as [|n IH]; intros [|c s]; simpl; auto.
Qed.

Lemma take_app (a b : string) : take (String.length a) (a +:+ b) = a.
Proof. induction a as [|x a IH]; simpl; [now destruct b | now rewrite IH]. Qed.

Lemma drop_app (a b : string) : drop (String.length a) (a +:+ b) = b.
Proof. induction a as [|x a IH]; simpl; auto. Qed.

Lemma drop_length (s : string) : drop (String.length s) s = EmptyString.
Proof. induction s; simpl; auto. Qed.

Lemma mem_app (c : ascii) (a b : string) :
  mem c (a +:+ b) = mem c a || mem c b.
Proof.
  induction a as [|x a IH]; simpl; [reflexivity|].
  rewrite IH. now rewrite orb_assoc.
Qed.

Lemma mem_cons_false (c d : ascii) (s : string) :
  mem c (String d s) = false -> c <> d /\ mem c s = false.
Proof.
  cbn [mem]. intros H. apply orb_false_iff in H as [Hc Hs].
  split; [now apply Ascii.eqb_neq | exact Hs].
Qed.

(** *** [strings.Index] *)

Lemma prefix_length (p s : string) :
  String.prefix p s = true -> (String.length p <= String.length s)%nat.
Proof.
  revert s; induction p as [|x p IH]; intros s H; simpl; [lia|].
  destruct s as [|y s]; simpl in *; [discriminate|].
  destruct (ascii_dec x y); [|discriminate].
  apply IH in H. lia.
Qed.

Lemma prefix_cons (c : ascii) (p s : string) :
  String.prefix (String c p) (String c s) = String.prefix p s.
Proof. cbn [String.prefix]. destruct (ascii_dec c c); congruence. Qed.

Lemma prefix_nil (s : string) : String.prefix EmptyString s = true.
Proof. now destruct s. Qed.

Lemma Index_bound (s sub : string) (k : nat) :
  Index s sub = Some k -> (k + String.length sub <= String.length s)%nat.
Proof.
  revert k; induction s as [|c s IH]; intros k H.
  - cbn [Index] in H.
    destruct (String.prefix sub EmptyString) eqn:E; [|discriminate].
    injection H as <-. now apply prefix_length in E.
  - cbn [Index] in H.
    destruct (String.prefix sub (String c s)) eqn:E.
    + injection H as <-. now apply prefix_length in E.
    + destruct (Index s sub) as [j|]; [|discriminate].
      injection H as <-. specialize (IH j eq_refl). simpl. lia.
Qed.

Lemma shift_S (n : nat) (o : option nat) :
  option_map S (shift n o) = shift (S n) o.
Proof. now destruct o. Qed.

(** No occurrence of [.#] starts in a text without dots. *)
Lemma Index_skip_nodot (a b : string) :
  mem "."%char a = false ->
  Index (a +:+ b) ".#" = shift (String.length a) (Index b ".#").
Proof.
  induction a as [|c a IH]; intros H.
  - simpl. now destruct (Index b ".#").
  - apply mem_cons_false in H as [Hc Ha].
    change (String c a +:+ b) with (String c (a +:+ b)).
    cbn [Index String.prefix].
    destruct (ascii_dec "."%char c) as [<-|_]; [congruence|].
    rewrite (IH Ha). apply shift_S.
Qed.

(** Nor in a text without number signs that is followed by another
    byte than a number sign. *)
Lemma Index_skip_nohash (a b : string) :
  mem "#"%char a = false -> String.prefix "#" b = false ->
  Index (a +:+ b) ".#" = shift (String.length a) (Index b ".#").
Proof.
  induction a as [|c a IH]; intros H Hb.
  - simpl. now destruct (Index b ".#").
  - apply mem_cons_false in H as [Hc Ha].
    change (String c a +:+ b) with (String c (a +:+ b)).
    cbn [Index].
    assert (Hp : String.prefix ".#" (String c (a +:+ b)) = false).
    { cbn [String.prefix]. destruct (ascii_dec "."%char c); [|reflexivity].
      destruct a as [|d a]; [exact Hb|].
      apply mem_cons_false in Ha as [Hd _].
      cbn [String.prefix String.append].
      destruct (ascii_dec "#"%char d); [congruence|reflexivity]. }
    rewrite Hp, (IH Ha Hb). apply shift_S.
Qed.

(** The first wildcard of [pre.#suf] when [pre] has no number sign. *)
Lemma Index_first_wildcard (pre suf : string) :
  mem "#"%char pre = false ->
  Index (pre +:+ ".#" +:+ suf) ".#" = Some (String.length pre).
Proof.
  induction pre as [|c pre IH]; intros H.
  - cbn [String.append Index]. now rewrite !prefix_cons, prefix_nil.
  - apply mem_cons_false in H as [Hc Ha].
    change (String c pre +:+ ".#" +:+ suf)
      with (String c (pre +:+ ".#" +:+ suf)).
    cbn [Index].
    assert (Hp : String.prefix ".#" (String c (pre +:+ ".#" +:+ suf)) = false).
    { cbn [String.prefix]. destruct (ascii_dec "."%char c); [|reflexivity].
      destruct pre as [|d pre]; [reflexivity|].
      apply mem_cons_false in Ha as [Hd _].
      cbn [String.prefix String.append].
      destruct (ascii_dec "#"%char d); [congruence|reflexivity]. }
    rewrite Hp, (IH Ha). reflexivity.
Qed.

(** The index of a single byte that the text before it does not hold. *)
Lemma Index_byte (c : ascii) (a b : string) :
  mem c a = false ->
  Index (a +:+ String c b) (String c EmptyString) = Some (String.length a).
Proof.
  induction a as [|x a IH]; intros H.
  - cbn [String.append Index]. now rewrite prefix_cons, prefix_nil.
  - apply mem_cons_false in H as [Hc Ha].
    change (String x a +:+ String c b) with (String x (a +:+ String c b)).
    cbn [Index String.prefix].
    destruct (ascii_dec c x) as [<-|_]; [congruence|].
    now rewrite (IH Ha).
Qed.

Lemma Index_none (c : ascii) (a : string) :
  mem c a = false -> Index a (String c EmptyString) = None.
Proof.
  induction a as [|x a IH]; intros H; [reflexivity|].
  apply mem_cons_false in H as [Hc Ha].
  cbn [Index String.prefix].
  destruct (ascii_dec c x) as [<-|_]; [congruence|].
  now rewrite (IH Ha).
Qed.

(** *** [strings.Count] *)

Lemma Count_loop_ge (fuel : nat) (s sub : string) (n : nat) :
  (n <= Count_loop fuel s sub n)%nat.
Proof.
  revert s n; induction fuel as [|fuel IH]; intros s n; simpl; [lia|].
  destruct (Index s sub); [|lia].
  specialize (IH (drop (n0 + String.length sub) s) (S n)). lia.
Qed.

(** A rule has a wildcard level exactly when [strings.Index] finds a
    wildcard in its path. *)
Lemma Count_zero_iff (s sub : string) :
  Count s sub = O <-> Index s sub = None.
Proof.
  unfold Count. cbn [Count_loop].
  destruct (Index s sub) as [k|]; [|tauto].
  pose proof (Count_loop_ge (String.length s)
                (drop (k + String.length sub) s) sub 1).
  split; [lia | discriminate].
Qed.

(** The fuel of [Count] never runs out: more fuel counts the same. *)
Lemma Count_loop_fuel (sub : string) :
  sub <> EmptyString ->
  forall fuel1 fuel2 s n,
    (String.length s < fuel1)%nat -> (String.length s < fuel2)%nat ->
    Count_loop fuel1 s sub n = Count_loop fuel2 s sub n.
Proof.
  intros Hsub. induction fuel1 as [|fuel1 IH]; intros fuel2 s n H1 H2; [lia|].
  destruct fuel2 as [|fuel2]; [lia|]. cbn [Count_loop].
  destruct (Index s sub) as [k|] eqn:E; [|reflexivity].
  apply Index_bound in E.
  assert (0 < String.length sub)%nat by (destruct sub; simpl; [congruence|lia]).
  apply IH; rewrite length_drop; lia.
Qed.

(** *** [strings.ReplaceAll] and [strconv.Itoa] *)

Lemma ReplaceAll_wildcard (pre new : string) :
  mem "#"%char pre = false ->
  ReplaceAll (pre +:+ ".#") "#" new = pre +:+ "." +:+ new.
Proof.
  intros H. unfold ReplaceAll. cbn [ReplaceAll_loop].
  assert (E : pre +:+ ".#" = (pre +:+ ".") +:+ "#")
    by now rewrite append_assoc.
  assert (Hm : mem "#"%char (pre +:+ ".") = false)
    by (rewrite mem_app, H; reflexivity).
  rewrite E, (Index_byte "#"%char _ EmptyString Hm).
  replace (String.length (pre +:+ ".") + String.length "#")%nat
    with (String.length ((pre +:+ ".") +:+ "#"))
    by (rewrite !length_append; reflexivity).
  rewrite take_app, drop_length.
  destruct (String.length ((pre +:+ ".") +:+ "#")); cbn;
    now rewrite append_nil_r, append_assoc.
Qed.

Lemma mem_string_of_uint (c : ascii) (d : uint) :
  RefJson.isDigit c = false ->
  mem c (NilEmpty.string_of_uint d) = false.
Proof.
  intros Hc. induction d; simpl; try rewrite IHd; try reflexivity;
    rewrite orb_false_r; apply Ascii.eqb_neq; intros ->; discriminate Hc.
Qed.

Lemma mem_Itoa (c : ascii) (i : nat) :
  RefJson.isDigit c = false -> mem c (Itoa i) = false.
Proof.
  intros Hc. unfold Itoa, NilZero.string_of_uint.
  destruct (Nat.to_uint i) eqn:E;
    try (rewrite <- E; apply mem_string_of_uint; exact Hc).
  simpl. rewrite orb_false_r. apply Ascii.eqb_neq; intros ->; discriminate Hc.
Qed.

Lemma Itoa_head (i : nat) (b : string) :
  String.prefix "#" (Itoa i +:+ b) = false.
Proof.
  pose proof (mem_Itoa "#"%char i eq_refl) as H.
  unfold Itoa, NilZero.string_of_uint in *.
  destruct (Nat.to_uint i); cbn in *; try reflexivity.
Qed.

End StrFacts.

(** ** Facts on the engine *)

Section EngineFacts.

Context {lib : JsonLib}.
Variable jm : JsonMaskerImpl.
Import StrFacts.

Lemma forRange_ext (f g : nat -> bytes -> bytes * option error) :
  (forall i d, f i d = g i d) ->
  forall n i d, forRange f n i d = forRange g n i d.
Proof.
  intros E. induction n as [|n IH]; intros i d; simpl; [reflexivity|].
  rewrite E. destruct (g i d) as [d' [e|]]; [reflexivity | apply IH].
Qed.

(** The fuel of [rangeOverArray] never runs out. *)
Lemma rangeOverArray_fuel_enough (rule : Rule) :
  forall fuel1 fuel2 data arrPath arrItemPath,
    (String.length arrItemPath < fuel1)%nat ->
    (String.length arrItemPath < fuel2)%nat ->
    rangeOverArray_fuel jm fuel1 data rule arrPath arrItemPath =
    rangeOverArray_fuel jm fuel2 data rule arrPath arrItemPath.
Proof.
  induction fuel1 as [|fuel1 IH]; intros fuel2 data ap aip H1 H2; [lia|].
  destruct fuel2 as [|fuel2]; [lia|].
  cbn [rangeOverArray_fuel]. unfold rangeBody.
  destruct (negb (gjson.Exists (GetBytes data ap))); [reflexivity|].
  apply forRange_ext. intros i d. unfold rangeStep.
  destruct (String.eqb (Action rule) "-"); [reflexivity|].
  destruct (Index aip ".#") as [k|] eqn:E; [|reflexivity].
  apply Index_bound in E. simpl in E.
  apply IH; rewrite length_drop; lia.
Qed.

(** [rangeOverArray] satisfies the equation of its source text. *)
Lemma rangeOverArray_eq (data : bytes) (rule : Rule)
    (arrPath arrItemPath : string) :
  rangeOverArray jm data rule arrPath arrItemPath =
  rangeBody jm (fun d p q => rangeOverArray jm d rule p q)
    data rule arrPath arrItemPath.
Proof.
  unfold rangeOverArray at 1. cbn [rangeOverArray_fuel]. unfold rangeBody.
  destruct (negb (gjson.Exists (GetBytes data arrPath))); [reflexivity|].
  apply forRange_ext. intros i d. unfold rangeStep.
  destruct (String.eqb (Action rule) "-"); [reflexivity|].
  destruct (Index arrItemPath ".#") as [k|] eqn:E; [|reflexivity].
  apply Index_bound in E. simpl in E.
  apply rangeOverArray_fuel_enough; rewrite ?length_drop; lia.
Qed.

(** [rangeOverArray] reads nothing of the rule but its action. *)
Lemma rangeOverArray_fuel_Action (rule1 rule2 : Rule) :
  Action rule1 = Action rule2 ->
  forall fuel data arrPath arrItemPath,
    rangeOverArray_fuel jm fuel data rule1 arrPath arrItemPath =
    rangeOverArray_fuel jm fuel data rule2 arrPath arrItemPath.
Proof.
  intros EA. induction fuel as [|fuel IH]; intros data ap aip; [reflexivity|].
  cbn [rangeOverArray_fuel]. unfold rangeBody.
  destruct (negb (gjson.Exists (GetBytes data ap))); [reflexivity|].
  apply forRange_ext. intros i d. unfold rangeStep. rewrite EA.
  destruct (String.eqb (Action rule2) "-"); [reflexivity|].
  destruct (Index aip ".#") as [k|]; [apply IH | reflexivity].
Qed.

Lemma rangeOverArray_Action (rule1 rule2 : Rule) data arrPath arrItemPath :
  Action rule1 = Action rule2 ->
  rangeOverArray jm data rule1 arrPath arrItemPath =
  rangeOverArray jm data rule2 arrPath arrItemPath.
Proof. intros EA. now apply rangeOverArray_fuel_Action. Qed.

(** [mask], one rule at a time. *)
Lemma mask_cons (data : bytes) (rule : Rule) (rules : list Rule) :
  mask jm data (rule :: rules) =
  if Nat.eqb (sliceLevel rule) O then
    andThen (maskSimplePath jm data (Path rule) (Action rule))
      (fun data' => mask jm data' rules)
  else
    match Index (Path rule) ".#" with
    | None => (EmptyString, Some (errors_New "invalid json array path"))
    | Some idx =>
        andThen (rangeOverArray jm data rule (take (idx + 2) (Path rule))
                   (drop (idx + 2) (Path rule)))
          (fun data' => mask jm data' rules)
    end.
Proof.
  cbn [mask]. unfold andThen.
  destruct (Nat.eqb (sliceLevel rule) O).
  - now destruct (maskSimplePath jm data (Path rule) (Action rule)) as [? [?|]].
  - destruct (Index (Path rule) ".#"); [|reflexivity].
    now destruct (rangeOverArray jm data rule _ _) as [? [?|]].
Qed.

Lemma mask_error (data : bytes) (rules : list Rule) (d : bytes) (e : error) :
  mask jm data rules = (d, Some e) -> d = EmptyString.
Proof.
  revert data. induction rules as [|r rules IH]; intros data H.
  - discriminate.
  - rewrite mask_cons in H. unfold andThen in H.
    destruct (Nat.eqb (sliceLevel r) O).
    + destruct (maskSimplePath jm data (Path r) (Action r)) as [d' [e'|]];
        [now injection H | eauto].
    + destruct (Index (Path r) ".#"); [|now injection H].
      destruct (rangeOverArray jm data r _ _) as [d' [e'|]];
        [now injection H | eauto].
Qed.

Lemma mask_app (data : bytes) (rules1 rules2 : list Rule) :
  mask jm data (rules1 ++ rules2) =
  andThen (mask jm data rules1) (fun data' => mask jm data' rules2).
Proof.
  revert data. induction rules1 as [|r rules1 IH]; intros data.
  - reflexivity.
  - change ((r :: rules1) ++ rules2) with (r :: (rules1 ++ rules2)).
    rewrite !mask_cons. unfold andThen in *.
    destruct (Nat.eqb (sliceLevel r) O).
    + destruct (maskSimplePath jm data (Path r) (Action r)) as [d' [e'|]];
        [reflexivity | apply IH].
    + destruct (Index (Path r) ".#"); [|reflexivity].
      destruct (rangeOverArray jm data r _ _) as [d' [e'|]];
        [reflexivity | apply IH].
Qed.

End EngineFacts.

(** ** Wildcard expansion *)

Section Expansion.

Context {lib : JsonLib}.
Variable jm : JsonMaskerImpl.
Import StrFacts.

Lemma take_app_plus (a b : string) (n : nat) :
  take (String.length a + n) (a +:+ b) = a +:+ take n b.
Proof. induction a as [|x a IH]; simpl; [reflexivity | now rewrite IH]. Qed.

Lemma drop_app_plus (a b : string) (n : nat) :
  drop (String.length a + n) (a +:+ b) = drop n b.
Proof. induction a as [|x a IH]; simpl; auto. Qed.

(** The first wildcard of the path of an element rule is the first
    wildcard of [suf]. *)
Lemma Index_element (pre suf : string) (i : nat) :
  mem "#"%char pre = false ->
  Index (pre +:+ "." +:+ Itoa i +:+ suf) ".#" =
  shift (String.length (pre +:+ "." +:+ Itoa i)) (Index suf ".#").
Proof.
  intros H.
  replace (pre +:+ "." +:+ Itoa i +:+ suf)
    with ((pre +:+ ".") +:+ (Itoa i +:+ suf))
    by now rewrite !append_assoc.
  rewrite Index_skip_nohash;
    [| rewrite mem_app, H; reflexivity | apply Itoa_head].
  rewrite Index_skip_nodot by now apply mem_Itoa.
  replace (String.length (pre +:+ "." +:+ Itoa i))
    with (String.length (pre +:+ ".") + String.length (Itoa i))%nat
    by (rewrite <- append_assoc, <- length_append; reflexivity).
  destruct (Index suf ".#"); simpl; [f_equal; lia | reflexivity].
Qed.

(** One iteration of the loop of [rangeOverArray] applies the element
    rule. *)
Lemma rangeStep_element (rule : Rule) (pre suf : string) (i : nat)
    (d : bytes) (rules : list Rule) :
  mem "#"%char pre = false ->
  andThen
    (rangeStep jm (fun d p q => rangeOverArray jm d rule p q) rule
       (pre +:+ ".#") suf (Index suf ".#")
       match Index suf ".#" with
       | Some k => take (k + 2) suf
       | None => EmptyString
       end
       match Index suf ".#" with
       | Some k => drop (k + 2) suf
       | None => EmptyString
       end i d)
    (fun d' => mask jm d' rules) =
  mask jm d (elementRule rule pre suf i :: rules).
Proof.
  intros H. rewrite mask_cons. unfold rangeStep.
  rewrite (ReplaceAll_wildcard pre (Itoa i) H).
  cbn [elementRule Path Action sliceLevel].
  assert (EP : (pre +:+ "." +:+ Itoa i) +:+ suf
               = pre +:+ "." +:+ Itoa i +:+ suf)
    by now rewrite !append_assoc.
  destruct (String.eqb (Action rule) "-") eqn:EA.
  - cbn [Nat.eqb]. unfold maskSimplePath. now rewrite EA, EP.
  - destruct (Index suf ".#") as [k|] eqn:EI.
    + assert (HC : Count suf ".#" <> O)
        by (rewrite Count_zero_iff; congruence).
      apply Nat.eqb_neq in HC. rewrite HC.
      rewrite (Index_element pre suf i H), EI. cbn [shift option_map].
      rewrite <- EP, <- Nat.add_assoc, take_app_plus, drop_app_plus.
      f_equal. now apply rangeOverArray_Action.
    + apply Count_zero_iff in EI. rewrite EI. cbn [Nat.eqb].
      unfold maskSimplePath. now rewrite EA, EP.
Qed.

Lemma forRange_element (rule : Rule) (pre suf : string)
    (rules : list Rule) :
  mem "#"%char pre = false ->
  forall n i d,
    andThen
      (forRange
         (rangeStep jm (fun d p q => rangeOverArray jm d rule p q) rule
            (pre +:+ ".#") suf (Index suf ".#")
            match Index suf ".#" with
            | Some k => take (k + 2) suf
            | None => EmptyString
            end
            match Index suf ".#" with
            | Some k => drop (k + 2) suf
            | None => EmptyString
            end) n i d)
      (fun d' => mask jm d' rules) =
    mask jm d (List.map (elementRule rule pre suf) (seq i n) ++ rules).
Proof.
  intros H. induction n as [|n IH]; intros i d.
  - reflexivity.
  - cbn [seq List.map app forRange].
    rewrite <- rangeStep_element by exact H.
    destruct (rangeStep _ _ _ _ _ _ _ _ _ _) as [d' [e|]]; [reflexivity|].
    cbn [andThen]. apply IH.
Qed.

(** Without a [#] there is no wildcard. *)
Lemma Count_nohash (s : string) :
  mem "#"%char s = false -> Count s ".#" = O.
Proof.
  intros H. apply Count_zero_iff.
  rewrite <- (append_nil_r s). now rewrite Index_skip_nohash.
Qed.

(** C1 (amended). When the wildcard prefix [pre.#] of a rule with a
    wildcard level holds no other [#] than its wildcard, and the array at
    that prefix exists in the document and has [N] elements, applying the
    rule is applying, in this order, the [N] element rules for the
    addresses [pre.0suf], ..., [pre.(N-1)suf]: one address per element,
    the index in place of the first wildcard, ascending. When nothing is
    left to expand in [suf], these addresses are concrete: they hold no
    [#], and the action is applied at each of them as it is. When [suf]
    holds further wildcards, a rule with another action than the deletion
    sentinel is expanded again at each address, as C1 says, whereas the
    deletion sentinel is applied to the address as it is, with its
    wildcards: the expansion does not descend for a deletion. *)
Theorem wildcard_expansion (data : bytes) (rule : Rule) (pre suf : string)
    (N : nat) (rules : list Rule) :
  (0 < sliceLevel rule)%nat ->
  Path rule = pre +:+ ".#" +:+ suf ->
  mem "#"%char pre = false ->
  gjson.Exists (GetBytes data (pre +:+ ".#")) = true ->
  gjson.Int (GetBytes data (pre +:+ ".#")) = Z.of_nat N ->
  let addresses :=
    List.map (fun i => pre +:+ "." +:+ Itoa i +:+ suf) (seq O N) in
  length addresses = N /\
  List.map Path (List.map (elementRule rule pre suf) (seq O N)) = addresses /\
  mask jm data (rule :: rules) =
  mask jm data (List.map (elementRule rule pre suf) (seq O N) ++ rules) /\
  (mem "#"%char suf = false ->
   forall i, mem "#"%char (Path (elementRule rule pre suf i)) = false /\
             sliceLevel (elementRule rule pre suf i) = O) /\
  (Action rule <> "-" ->
   forall i, elementRule rule pre suf i = concreteRule rule pre suf i) /\
  (Action rule = "-" ->
   forall i d,
     mask jm d (elementRule rule pre suf i :: rules) =
     andThen (sjsonResult (DeleteBytes d (pre +:+ "." +:+ Itoa i +:+ suf)))
       (fun d' => mask jm d' rules)).
Proof.
  intros HL HP Hpre HE HN addresses. repeat apply conj.
  - unfold addresses. now rewrite length_map, length_seq.
  - unfold addresses. rewrite List.map_map. reflexivity.
  - rewrite mask_cons.
    destruct (Nat.eqb_spec (sliceLevel rule) O) as [E|_]; [lia|].
    rewrite HP, (Index_first_wildcard pre suf Hpre).
    replace (pre +:+ ".#" +:+ suf) with ((pre +:+ ".#") +:+ suf)
      by now rewrite append_assoc.
    replace (String.length pre + 2)%nat with (String.length (pre +:+ ".#"))
      by (rewrite length_append; reflexivity).
    rewrite take_app, drop_app, rangeOverArray_eq. unfold rangeBody.
    rewrite HE, HN, Nat2Z.id. cbn [negb].
    now apply forRange_element.
  - intros Hsuf i. unfold elementRule. cbn [Path sliceLevel]. split.
    + rewrite !mem_app, Hpre, Hsuf, (mem_Itoa "#"%char i eq_refl).
      reflexivity.
    + rewrite (Count_nohash suf Hsuf). now destruct (String.eqb _ _).
  - intros NE i. unfold elementRule, concreteRule.
    apply String.eqb_neq in NE. now rewrite NE.
  - intros E i d. rewrite mask_cons. unfold elementRule, maskSimplePath.
    cbn [Path Action sliceLevel]. rewrite E. reflexivity.
Qed.

End Expansion.

Lemma wildcard_expansion_witness :
  mask (lib := RefJson.lib) New
    (js "{'items':[{'currency':'usd'},{'currency':'eur'}]}")
    [{| Path := "items.#.currency"; Action := "upper"; sliceLevel := 1 |}]
  = (js "{'items':[{'currency':'USD'},{'currency':'EUR'}]}", None).
Proof.
  pose proof (wildcard_expansion (lib := RefJson.lib) New
    (js "{'items':[{'currency':'usd'},{'currency':'eur'}]}")
    {| Path := "items.#.currency"; Action := "upper"; sliceLevel := 1 |}
    "items" ".currency" 2 []) as H.
  cbv zeta in H.
  destruct H as (_ & _ & -> & _);
    [cbn; lia | reflexivity | reflexivity | reflexivity | reflexivity |].
  vm_compute. reflexivity.
Defined.

(** C1 as stated fails in two ways. For a deletion, the expansion does not
    descend: with the rule [items.#.#.amount] the delete primitive is
    called at [items.0.#.amount], which is no concrete address, and the
    [amount] of no element is deleted. And the index is put in place of
    every [#] of the prefix, not of the wildcard only: with the rule
    [a#b.#.x], which [ParseStruct] gives for a slice with the wire name
    [a#b], the action is applied at [a0b.0.x]. *)
Lemma wildcard_expansion_counterexample :
  ~ expansionClaim (lib := RefJson.lib) New
      (js "{'items':[[{'amount':1,'id':2}]]}")
      {| Path := "items.#.#.amount"; Action := "-"; sliceLevel := 2 |}
      "items" ".#.amount" 1 /\
  ~ expansionClaim (lib := RefJson.lib) New
      (js "{'a#b':[{'x':'u'}]}")
      {| Path := "a#b.#.x"; Action := "upper"; sliceLevel := 1 |}
      "a#b" ".x" 1 /\
  mask (lib := RefJson.lib) New (js "{'items':[[{'amount':1,'id':2}]]}")
    [{| Path := "items.#.#.amount"; Action := "-"; sliceLevel := 2 |}]
  = (EmptyString,
     Some (sjson_error "cannot delete value from a complex path")) /\
  mask (lib := RefJson.lib) New (js "{'a#b':[{'x':'u'}]}")
    [{| Path := "a#b.#.x"; Action := "upper"; sliceLevel := 1 |}]
  = (js "{'a#b':[{'x':'u'}],'a0b':[{'x':}]}", None).
Proof.
  repeat apply conj; try (vm_compute; reflexivity);
    intros H; unfold expansionClaim in H;
    (assert (C := H ltac:(cbn; lia) eq_refl eq_refl eq_refl eq_refl));
    vm_compute in C; discriminate C.
Qed.

(** ** Errors of the engine *)

Section Errors.

Context {lib : JsonLib}.
Variable jm : JsonMaskerImpl.
Import StrFacts.

Lemma andThen_assoc (r : bytes * option error)
    (k1 k2 : bytes -> bytes * option error) :
  andThen (andThen r k1) k2 = andThen r (fun d => andThen (k1 d) k2).
Proof. now destruct r as [d [e|]]. Qed.

Lemma forRange_S (step : nat -> bytes -> bytes * option error)
    (n i : nat) (d : bytes) :
  forRange step (S n) i d =
  andThen (step i d) (fun d' => forRange step n (S i) d').
Proof. reflexivity. Qed.

Lemma forallb_true {A : Type} (l : list A) :
  forallb (fun _ => true) l = true.
Proof. induction l; simpl; auto. Qed.

(** A loop whose iterations leave the data as it is or fail. *)
Lemma forRange_unchanged (ok : nat -> bool) (e : error)
    (step : nat -> bytes -> bytes * option error) (data : bytes) :
  (forall i k, andThen (step i data) k
               = if ok i then k data else (EmptyString, Some e)) ->
  forall n i k,
    andThen (forRange step n i data) k =
    if forallb ok (seq i n) then k data else (EmptyString, Some e).
Proof.
  intros Hstep. induction n as [|n IH]; intros i k.
  - reflexivity.
  - rewrite forRange_S, andThen_assoc, Hstep. cbn [seq forallb].
    destruct (ok i); [apply IH | reflexivity].
Qed.

(** With an unregistered action an expansion changes nothing: it succeeds
    when all its arrays exist and fails otherwise. *)
Lemma rangeOverArray_unregistered (rule : Rule) :
  unregistered jm rule ->
  forall fuel data arrPath arrItemPath k,
    andThen (rangeOverArray_fuel jm fuel data rule arrPath arrItemPath) k =
    if arraysExist_fuel fuel data arrPath arrItemPath then k data
    else (EmptyString, Some (errors_New "json array not found")).
Proof.
  intros [Hdel Hreg]. apply String.eqb_neq in Hdel.
  induction fuel as [|fuel IH]; intros data ap aip k; [reflexivity|].
  cbn [rangeOverArray_fuel arraysExist_fuel]. unfold rangeBody.
  destruct (gjson.Exists (GetBytes data ap)); [|reflexivity].
  cbn [negb andb].
  destruct (Index aip ".#") as [j|] eqn:EI.
  - apply forRange_unchanged with
      (ok := fun i =>
               arraysExist_fuel fuel data
                 (ReplaceAll ap "#" (Itoa i) +:+ take (j + 2) aip)
                 (drop (j + 2) aip)).
    intros i k'. unfold rangeStep. rewrite Hdel. apply IH.
  - etransitivity.
    + apply forRange_unchanged with
        (ok := fun _ => true) (e := errors_New "json array not found").
      intros i k'. unfold rangeStep. now rewrite Hdel, Hreg.
    + now rewrite forallb_true.
Qed.

End Errors.

Section Unregistered.

Context {lib : JsonLib}.
Variable jm : JsonMaskerImpl.

Lemma mask_unregistered_cases (data : bytes) (rules : list Rule) :
  Forall (unregistered jm) rules ->
  if forallb (resolves data) rules
  then mask jm data rules = (data, None)
  else mask jm data rules
       = (EmptyString, Some (errors_New "json array not found")) \/
       mask jm data rules
       = (EmptyString, Some (errors_New "invalid json array path")).
Proof.
  induction 1 as [|r rules Hr _ IH]; [reflexivity|].
  cbn [forallb]. rewrite mask_cons. unfold resolves at 1.
  destruct (Nat.eqb (sliceLevel r) O).
  - cbn [orb andb]. destruct Hr as [Hdel Hreg].
    apply String.eqb_neq in Hdel. unfold maskSimplePath.
    rewrite Hdel, Hreg. exact IH.
  - cbn [orb]. destruct (Index (Path r) ".#") as [idx|]; [|cbn; now right].
    unfold rangeOverArray, arraysExist.
    rewrite (rangeOverArray_unregistered jm r Hr).
    destruct (arraysExist_fuel _ _ _ _); [exact IH | cbn; now left].
Qed.

(** C3 (amended). With actions that are neither the deletion sentinel nor
    registered, [Mask] never changes the document. When every rule has no
    wildcard level, or has a wildcard in its path and all the arrays that
    its expansion looks up exist, [Mask] returns the document as it is
    and no error; otherwise it returns no document and the error
    [json array not found] or the error [invalid json array path]. *)
Theorem Mask_unregistered (data : bytes) (smr : StructMaskRules) :
  Forall (unregistered jm) (Rules smr) ->
  (forallb (resolves data) (Rules smr) = true ->
   Mask jm data smr = (data, None)) /\
  (forallb (resolves data) (Rules smr) = false ->
   Mask jm data smr
   = (EmptyString, Some (errors_New "json array not found")) \/
   Mask jm data smr
   = (EmptyString, Some (errors_New "invalid json array path"))).
Proof.
  intros H. pose proof (mask_unregistered_cases data (Rules smr) H) as M.
  unfold Mask. destruct (forallb (resolves data) (Rules smr));
    split; intros E; try discriminate; exact M.
Qed.

End Unregistered.

Lemma Mask_unregistered_witness :
  Mask (lib := RefJson.lib) New
    (js "{'items':[{'currency':'usd'},{'currency':'eur'}]}")
    (ParseStruct New Examples.Untagged)
  = (js "{'items':[{'currency':'usd'},{'currency':'eur'}]}", None).
Proof.
  apply (Mask_unregistered (lib := RefJson.lib) New).
  - repeat constructor; vm_compute; congruence.
  - vm_compute. reflexivity.
Defined.

(** C3 as stated fails: the rules of a record with a slice, applied to a
    document without that array, give an error although no action is
    registered. *)
Lemma Mask_unregistered_counterexample :
  ~ (forall (data : bytes) (smr : StructMaskRules),
       Forall (unregistered New) (Rules smr) ->
       Mask (lib := RefJson.lib) New data smr = (data, None)).
Proof.
  intros H.
  specialize (H (js "{'id':1}") (ParseStruct New Examples.Untagged)).
  assert (F : Forall (unregistered New)
                (Rules (ParseStruct New Examples.Untagged)))
    by (repeat constructor; vm_compute; congruence).
  specialize (H F). vm_compute in H. discriminate H.
Qed.

Section Abort.

Context {lib : JsonLib}.
Variable jm : JsonMaskerImpl.

Lemma errIn_sjsonResult (r : bytes * option string) :
  errIn expansionError (sjsonResult r).
Proof.
  destruct r as [d [m|]]; cbn; [right; eauto | exact I].
Qed.

Lemma errIn_forRange (P : error -> Prop)
    (step : nat -> bytes -> bytes * option error) :
  (forall i d, errIn P (step i d)) ->
  forall n i d, errIn P (forRange step n i d).
Proof.
  intros H. induction n as [|n IH]; intros i d; [exact I|].
  cbn [forRange]. specialize (H i d).
  destruct (step i d) as [d' [e|]]; [exact H | apply IH].
Qed.

(** The only error that [rangeOverArray] makes itself is
    [json array not found]: it names no address. *)
Lemma errIn_rangeOverArray (rule : Rule) :
  forall fuel data arrPath arrItemPath,
    errIn expansionError
      (rangeOverArray_fuel jm fuel data rule arrPath arrItemPath).
Proof.
  induction fuel as [|fuel IH]; intros data ap aip; [exact I|].
  cbn [rangeOverArray_fuel]. unfold rangeBody.
  destruct (negb (gjson.Exists (GetBytes data ap))); [now left|].
  apply errIn_forRange. intros i d. unfold rangeStep.
  destruct (String.eqb (Action rule) "-"); [apply errIn_sjsonResult|].
  destruct (Index aip ".#"); [apply IH|].
  destruct (funcs jm !! Action rule); [apply errIn_sjsonResult | exact I].
Qed.

Lemma errIn_maskSimplePath (data : bytes) (path action : string) :
  errIn expansionError (maskSimplePath jm data path action).
Proof.
  unfold maskSimplePath.
  destruct (String.eqb action "-"); [apply errIn_sjsonResult|].
  destruct (funcs jm !! action); [apply errIn_sjsonResult | exact I].
Qed.

Lemma errIn_andThen (P : error -> Prop) (r : bytes * option error)
    (k : bytes -> bytes * option error) :
  errIn P r -> (forall d, errIn P (k d)) -> errIn P (andThen r k).
Proof. destruct r as [d [e|]]; cbn; auto. Qed.

(** When every rule with a wildcard level has a wildcard in its path,
    [mask] returns no other error than those of the expansion. *)
Lemma errIn_mask (rules : list Rule) :
  Forall (fun r => sliceLevel r = Count (Path r) ".#") rules ->
  forall data, errIn expansionError (mask jm data rules).
Proof.
  induction 1 as [|r rules Hr _ IH]; intros data; [exact I|].
  rewrite mask_cons. destruct (Nat.eqb_spec (sliceLevel r) O) as [E|E].
  - apply errIn_andThen; [apply errIn_maskSimplePath | exact IH].
  - destruct (Index (Path r) ".#") as [idx|] eqn:EI.
    + apply errIn_andThen; [apply errIn_rangeOverArray | exact IH].
    + apply StrFacts.Count_zero_iff in EI. congruence.
Qed.

(** C5 (amended). When, after the rules before it have been applied, the
    wildcard prefix of a rule with a wildcard level is not found in the
    document, [mask] stops there: whatever rules remain, it returns the
    nil document and the error [json array not found]. More generally
    any error of the expansion of the rule is returned at once, and an
    error made by [errors.New] in it has that fixed message: it does not
    carry the address of the rule. *)
Theorem mask_array_not_found (data data1 : bytes)
    (rules1 rules2 : list Rule) (rule : Rule) (idx : nat) :
  mask jm data rules1 = (data1, None) ->
  (0 < sliceLevel rule)%nat ->
  Index (Path rule) ".#" = Some idx ->
  (gjson.Exists (GetBytes data1 (take (idx + 2) (Path rule))) = false ->
   mask jm data (rules1 ++ rule :: rules2)
   = (EmptyString, Some (errors_New "json array not found"))) /\
  (forall d e,
     rangeOverArray jm data1 rule (take (idx + 2) (Path rule))
       (drop (idx + 2) (Path rule)) = (d, Some e) ->
     mask jm data (rules1 ++ rule :: rules2) = (EmptyString, Some e) /\
     forall msg, e = errors_New msg -> msg = "json array not found").
Proof.
  intros H1 HL HI.
  assert (M : mask jm data (rules1 ++ rule :: rules2)
              = andThen (rangeOverArray jm data1 rule
                           (take (idx + 2) (Path rule))
                           (drop (idx + 2) (Path rule)))
                  (fun d => mask jm d rules2)).
  { rewrite mask_app, H1. cbn [andThen]. rewrite mask_cons.
    destruct (Nat.eqb_spec (sliceLevel rule) O) as [E|_]; [lia|].
    now rewrite HI. }
  split.
  - intros HE. rewrite M, rangeOverArray_eq. unfold rangeBody.
    now rewrite HE.
  - intros d e R. rewrite M, R. split; [reflexivity|].
    intros msg ->.
    pose proof (errIn_rangeOverArray rule
                  (S (String.length (drop (idx + 2) (Path rule))))
                  data1 (take (idx + 2) (Path rule))
                  (drop (idx + 2) (Path rule))) as P.
    fold (rangeOverArray jm data1 rule (take (idx + 2) (Path rule))
            (drop (idx + 2) (Path rule))) in P.
    rewrite R in P. cbn in P. destruct P as [P|[m P]]; congruence.
Qed.

End Abort.

Lemma mask_array_not_found_witness :
  mask (lib := RefJson.lib) New (js "{'id':1,'name':'john'}")
    ([RuleLit "name" "upper"]
     ++ {| Path := "items.#.currency"; Action := "upper"; sliceLevel := 1 |}
     :: [RuleLit "id" "zero"])
  = (EmptyString, Some (errors_New "json array not found")).
Proof.
  apply (mask_array_not_found (lib := RefJson.lib) New
           (js "{'id':1,'name':'john'}") (js "{'id':1,'name':'JOHN'}")
           [RuleLit "name" "upper"] [RuleLit "id" "zero"]
           {| Path := "items.#.currency"; Action := "upper"; sliceLevel := 1 |}
           5).
  - vm_compute. reflexivity.
  - cbn. lia.
  - vm_compute. reflexivity.
  - vm_compute. reflexivity.
Defined.

(** C5 as stated fails: the error value does not identify the address of
    the failing rule. Two rules with different addresses fail with the same
    error, so no function recovers the address from the error. *)
Lemma mask_array_not_found_counterexample :
  ~ (exists addressOf : error -> string,
       forall (data : bytes) (rule : Rule) (idx : nat),
         (0 < sliceLevel rule)%nat ->
         Index (Path rule) ".#" = Some idx ->
         gjson.Exists (GetBytes (JsonLib := RefJson.lib) data
                         (take (idx + 2) (Path rule))) = false ->
         exists d e,
           mask (lib := RefJson.lib) New data [rule] = (d, Some e) /\
           addressOf e = Path rule).
Proof.
  intros [addressOf H].
  destruct (H (js "{'id':1}")
              {| Path := "a.#.x"; Action := "upper"; sliceLevel := 1 |} 1%nat)
    as (d1 & e1 & M1 & A1); [cbn; lia | reflexivity | reflexivity |].
  destruct (H (js "{'id':1}")
              {| Path := "b.#.x"; Action := "upper"; sliceLevel := 1 |} 1%nat)
    as (d2 & e2 & M2 & A2); [cbn; lia | reflexivity | reflexivity |].
  vm_compute in M1, M2.
  injection M1 as _ <-. injection M2 as _ <-.
  rewrite A1 in A2. discriminate A2.
Qed.

(** ** Rules without a wildcard level *)

Section Literal.

Context {lib : JsonLib}.
Variable jm : JsonMaskerImpl.

(** C10. A rule written as a composite literal has wildcard level zero,
    whatever its path: [mask] applies it through [maskSimplePath] to the
    path taken as one literal address, and no expansion takes place. *)
Theorem literal_rule_simple_path (data : bytes) (path action : string)
    (rules : list Rule) :
  sliceLevel (RuleLit path action) = O /\
  mask jm data (RuleLit path action :: rules) =
  andThen (maskSimplePath jm data path action)
    (fun data' => mask jm data' rules) /\
  Mask jm data {| Rules := [RuleLit path action] |} =
  andThen (maskSimplePath jm data path action) (fun data' => (data', None)).
Proof.
  split; [reflexivity|]. split.
  - now rewrite mask_cons.
  - unfold Mask. cbn [Rules]. now rewrite mask_cons.
Qed.

(** C6 (amended). For a rule without a wildcard level whose address is
    missing from the document, [Mask] makes no test of its own. With the
    deletion sentinel it returns what [sjson.DeleteBytes] returns: the
    document as it is and no error when that call leaves a missing address
    alone. With a registered function it calls the function on the raw
    text that gjson reports for the missing address and writes the result
    with [sjson.SetRawBytes]: when that call succeeds its document is
    returned, and it differs from the original one as soon as the address
    exists in it, so the absent field is introduced. *)
Theorem missing_literal_address (data : bytes) (path : string) :
  gjson.Exists (GetBytes data path) = false ->
  (DeleteBytes data path = (data, None) ->
   Mask jm data {| Rules := [RuleLit path "-"] |} = (data, None)) /\
  (forall (action : string) (maskFunc : string -> bytes) (data' : bytes),
     action <> "-" ->
     funcs jm !! action = Some maskFunc ->
     SetRawBytes data path (maskFunc (gjson.Raw (GetBytes data path)))
     = (data', None) ->
     Mask jm data {| Rules := [RuleLit path action] |} = (data', None) /\
     (gjson.Exists (GetBytes data' path) = true -> data' <> data)).
Proof.
  intros HE. split.
  - intros HD. unfold Mask. cbn [Rules]. rewrite mask_cons.
    cbn [RuleLit sliceLevel Path Action Nat.eqb]. unfold maskSimplePath.
    rewrite HD. reflexivity.
  - intros action maskFunc data' Hdel Hreg HS. split.
    + unfold Mask. cbn [Rules]. rewrite mask_cons.
      cbn [RuleLit sliceLevel Path Action Nat.eqb]. unfold maskSimplePath.
      apply String.eqb_neq in Hdel. rewrite Hdel, Hreg, HS. reflexivity.
    + intros HE' ->. congruence.
Qed.

End Literal.

Lemma missing_literal_address_witness :
  Mask (lib := RefJson.lib) New (js "{'id':1}")
    {| Rules := [RuleLit "name" "-"] |} = (js "{'id':1}", None) /\
  Mask (lib := RefJson.lib) New (js "{'id':1}")
    {| Rules := [RuleLit "name" "zero"] |} = (js "{'id':1,'name':0}", None) /\
  js "{'id':1,'name':0}" <> js "{'id':1}".
Proof.
  pose proof (missing_literal_address (lib := RefJson.lib) New
                (js "{'id':1}") "name" eq_refl) as [HD HS].
  split; [apply HD; reflexivity|].
  destruct (HS "zero" Zero (js "{'id':1,'name':0}")) as [M C].
  - discriminate.
  - vm_compute. reflexivity.
  - vm_compute. reflexivity.
  - split; [exact M | apply C; reflexivity].
Defined.

(** C6 as stated fails in its second half: with a registered function on a
    missing address the document does not stay as it is. *)
Lemma missing_literal_address_counterexample :
  ~ (forall (data : bytes) (path action : string) (maskFunc : string -> bytes),
       gjson.Exists (GetBytes (JsonLib := RefJson.lib) data path) = false ->
       funcs New !! action = Some maskFunc ->
       Mask (lib := RefJson.lib) New data {| Rules := [RuleLit path action] |}
       = (data, None)).
Proof.
  intros H.
  specialize (H (js "{'id':1}") "name" "zero" Zero eq_refl).
  assert (R : funcs New !! "zero" = Some Zero) by (vm_compute; reflexivity).
  specialize (H R). vm_compute in H. discriminate H.
Qed.

(** ** The two constructors *)

(** C9. [NewWithMaskTag] ignores its argument: it returns the masker of
    [New], whose tag name is the default [mask], so the rule tag of a field
    is always read from its [mask] tag, whatever the field holds under the
    tag name that was asked for, and [ParseStruct] gives the same rules. *)
Theorem NewWithMaskTag_ignores_tag (tag' : string) :
  NewWithMaskTag tag' = New /\
  tag (NewWithMaskTag tag') = "mask" /\
  (forall field : StructField,
     parseFieldTag (NewWithMaskTag tag') field
     = (wireName New field, Get (Tag field) "mask")) /\
  (forall src : Type_,
     ParseStruct (NewWithMaskTag tag') src = ParseStruct New src).
Proof.
  assert (E : NewWithMaskTag tag' = New) by reflexivity.
  split; [exact E|]. split; [reflexivity|]. split.
  - intros field. rewrite E. unfold wireName, parseFieldTag.
    cbn [fst]. reflexivity.
  - intros src. now rewrite E.
Qed.

(** With the tag name [secure] asked for, a field tagged [secure:"upper"]
    gets no rule and a field tagged [mask:"upper"] gets one. *)
Example NewWithMaskTag_secure :
  Rules (ParseStruct (NewWithMaskTag "secure")
           (TStruct [ ({| Name := "A"; PkgPath := EmptyString;
                          Tag := [("secure", "upper")] |}, TScalar SString);
                      ({| Name := "B"; PkgPath := EmptyString;
                          Tag := [("mask", "upper")] |}, TScalar SString) ]))
  = [RuleLit "B" "upper"].
Proof. reflexivity. Qed.

(** ** Facts on the introspection *)

Section Introspection.

Variable jm : JsonMaskerImpl.

Lemma depth_pos (t : Type_) : (1 <= depth t)%nat.
Proof. destruct t; simpl; lia. Qed.

Lemma depth_field (fields : list (StructField * Type_))
    (sf : StructField) (ft : Type_) :
  In (sf, ft) fields -> (depth ft < depth (TStruct fields))%nat.
Proof.
  cbn [depth]. induction fields as [|[sf' ft'] fields IH]; intros H.
  - destruct H.
  - destruct H as [H|H].
    + injection H as -> ->. lia.
    + specialize (IH H). lia.
Qed.

Lemma depth_derefPtr (t : Type_) : (depth (derefPtr t) <= depth t)%nat.
Proof. induction t; simpl in *; lia. Qed.

Lemma depth_elemOf (t : Type_) : (depth (elemOf t) <= depth t)%nat.
Proof. destruct t; simpl; lia. Qed.

Lemma depth_sliceLoop (t : Type_) (name : string) :
  (depth (fst (sliceLoop t name)) <= depth t)%nat.
Proof.
  revert name. induction t; intros name; simpl; try lia.
  specialize (IHt (name +:+ ".#")). lia.
Qed.

Lemma flat_map_ext_in {A B : Type} (f g : A -> list B) (l : list A) :
  (forall a, In a l -> f a = g a) -> flat_map f l = flat_map g l.
Proof.
  induction l as [|a l IH]; intros H; simpl; [reflexivity|].
  rewrite (H a) by now left. f_equal. apply IH. intros b Hb. apply H. now right.
Qed.

(** The fuel of the two introspection functions never runs out. *)
Lemma extract_fuel_enough (fuel1 : nat) :
  (forall fuel2 str parentAttr,
     (2 * depth str <= fuel1)%nat -> (2 * depth str <= fuel2)%nat ->
     extractStructRules_fuel fuel1 jm str parentAttr =
     extractStructRules_fuel fuel2 jm str parentAttr) /\
  (forall fuel2 val sf parentAttr,
     (S (2 * depth val) <= fuel1)%nat -> (S (2 * depth val) <= fuel2)%nat ->
     extractStructFieldRules_fuel fuel1 jm val sf parentAttr =
     extractStructFieldRules_fuel fuel2 jm val sf parentAttr).
Proof.
  induction fuel1 as [|fuel1 [IHs IHf]].
  - split; intros; [pose proof (depth_pos str) |]; lia.
  - split.
    + intros [|fuel2] str p H1 H2; [pose proof (depth_pos str); lia|].
      cbn [extractStructRules_fuel].
      pose proof (depth_derefPtr str) as Hd.
      destruct (derefPtr str) as [| | | | |fields] eqn:E; try reflexivity.
      apply flat_map_ext_in. intros [sft sfv] Hin.
      destruct (IsExported sft); [|reflexivity].
      apply depth_field in Hin. apply IHf; lia.
    + intros [|fuel2] val sf p H1 H2; [lia|].
      cbn [extractStructFieldRules_fuel].
      pose proof (depth_derefPtr val) as Hd.
      set (v0 := derefPtr val) in *.
      set (isSlice := Kind_eqb (kindOf v0) Slice || Kind_eqb (kindOf v0) Array).
      assert (Hv1 : (depth (if isSlice then elemOf v0 else v0) <= depth val)%nat).
      { destruct isSlice; [pose proof (depth_elemOf v0)|]; lia. }
      set (v1 := if isSlice then elemOf v0 else v0) in *.
      destruct (parseFieldTag jm sf) as [name maskTag].
      destruct (String.eqb maskTag "-"); [reflexivity|].
      destruct (negb (isComposite (kindOf v1))); [reflexivity|].
      destruct (kindOf v1); try reflexivity.
      * pose proof (depth_sliceLoop v1
                      (if isSlice then joinPath p (name +:+ ".#") else name)) as Hs.
        destruct (sliceLoop v1 _) as [v2 name2]. cbn [fst] in Hs.
        apply IHs; lia.
      * apply IHs; lia.
Qed.

(** The two functions satisfy the equations of their source text. *)
Lemma extractStructRules_eq (str : Type_) (parentAttr : string) :
  extractStructRules jm str parentAttr =
  match derefPtr str with
  | TStruct fields =>
      flat_map
        (fun f : StructField * Type_ =>
           let (sft, sfv) := f in
           if IsExported sft
           then extractStructFieldRules jm sfv sft parentAttr
           else [])
        fields
  | _ => []
  end.
Proof.
  unfold extractStructRules.
  pose proof (depth_pos str) as Hp.
  destruct (2 * depth str)%nat as [|fuel] eqn:EF; [lia|].
  cbn [extractStructRules_fuel].
  pose proof (depth_derefPtr str) as Hd.
  destruct (derefPtr str) as [| | | | |fields] eqn:E; try reflexivity.
  apply flat_map_ext_in. intros [sft sfv] Hin.
  destruct (IsExported sft); [|reflexivity].
  apply depth_field in Hin. unfold extractStructFieldRules.
  apply (extract_fuel_enough fuel); lia.
Qed.

Lemma extractStructFieldRules_eq (val : Type_) (sf : StructField)
    (parentAttr : string) :
  extractStructFieldRules jm val sf parentAttr =
  let val := derefPtr val in
  let kind := kindOf val in
  let isSlice := Kind_eqb kind Slice || Kind_eqb kind Array in
  let val := if isSlice then elemOf val else val in
  let kind := kindOf val in
  let (jsonAttrName, jsonMaskTag) := parseFieldTag jm sf in
  if String.eqb jsonMaskTag "-" then
    [RuleLit (joinPath parentAttr jsonAttrName) jsonMaskTag]
  else if negb (isComposite kind) then
    if String.eqb jsonMaskTag EmptyString then []
    else [RuleLit (joinPath parentAttr jsonAttrName) jsonMaskTag]
  else
    let jsonAttrName :=
      if isSlice then joinPath parentAttr (jsonAttrName +:+ ".#")
      else jsonAttrName in
    match kindOf val with
    | Struct => extractStructRules jm val jsonAttrName
    | Slice =>
        let (val', jsonAttrName') := sliceLoop val jsonAttrName in
        extractStructRules jm val' jsonAttrName'
    | _ =>
        [RuleLit (joinPath parentAttr jsonAttrName) (Get (Tag sf) (tag jm))]
    end.
Proof.
  unfold extractStructFieldRules. cbn [extractStructFieldRules_fuel].
  cbv zeta.
  pose proof (depth_derefPtr val) as Hd.
  set (v0 := derefPtr val) in *.
  set (isSlice := Kind_eqb (kindOf v0) Slice || Kind_eqb (kindOf v0) Array).
  assert (Hv1 : (depth (if isSlice then elemOf v0 else v0) <= depth val)%nat).
  { destruct isSlice; [pose proof (depth_elemOf v0)|]; lia. }
  set (v1 := if isSlice then elemOf v0 else v0) in *.
  destruct (parseFieldTag jm sf) as [name maskTag].
  destruct (String.eqb maskTag "-"); [reflexivity|].
  destruct (negb (isComposite (kindOf v1))); [reflexivity|].
  destruct (kindOf v1); try reflexivity.
  - pose proof (depth_sliceLoop v1
                  (if isSlice then joinPath parentAttr (name +:+ ".#")
                   else name)) as Hs.
    destruct (sliceLoop v1 _) as [v2 name2]. cbn [fst] in Hs.
    unfold extractStructRules. apply (extract_fuel_enough (2 * depth val)); lia.
  - unfold extractStructRules. apply (extract_fuel_enough (2 * depth val)); lia.
Qed.

End Introspection.

(** ** Wildcard segments *)

Section WildcardSegments.

Import StrFacts.

Lemma prefix_hash (s : string) :
  String.prefix "#" s
  = match s with
    | EmptyString => false
    | String c _ => Ascii.eqb c "#"%char
    end.
Proof.
  destruct s as [|c s]; [reflexivity|]. cbn [String.prefix].
  destruct (ascii_dec "#"%char c) as [<-|NE].
  - now rewrite prefix_nil.
  - symmetry. apply Ascii.eqb_neq. congruence.
Qed.

Lemma Index_dotHash_cons (c : ascii) (s : string) :
  Index (String c s) ".#"
  = if Ascii.eqb c "."%char && String.prefix "#" s then Some O
    else option_map S (Index s ".#").
Proof.
  cbn [Index String.prefix].
  destruct (ascii_dec "."%char c) as [<-|NE].
  - rewrite Ascii.eqb_refl. reflexivity.
  - replace (Ascii.eqb c "."%char) with false; [reflexivity|].
    symmetry. apply Ascii.eqb_neq. congruence.
Qed.

(** The first [.#] and what follows it. *)
Lemma dotHashes_Index (s : string) :
  match Index s ".#" with
  | None => dotHashes s = O
  | Some i => dotHashes s = S (dotHashes (drop (i + 2) s))
  end.
Proof.
  induction s as [|c s IH]; [reflexivity|].
  rewrite Index_dotHash_cons. cbn [dotHashes].
  destruct (Ascii.eqb c "."%char && String.prefix "#" s) eqn:E.
  - apply andb_prop in E as [_ E]. rewrite prefix_hash in E.
    destruct s as [|d s]; [discriminate|].
    cbn [Nat.add drop dotHashes]. f_equal.
    apply Ascii.eqb_eq in E. subst d. reflexivity.
  - destruct (Index s ".#") as [i|]; cbn [option_map Nat.add drop]; exact IH.
Qed.

Lemma Count_loop_dotHashes (fuel : nat) :
  forall s n,
    (String.length s < fuel)%nat ->
    Count_loop fuel s ".#" n = (n + dotHashes s)%nat.
Proof.
  induction fuel as [|fuel IH]; intros s n H; [lia|].
  cbn [Count_loop]. pose proof (dotHashes_Index s) as D.
  destruct (Index s ".#") as [i|] eqn:E.
  - rewrite D. apply Index_bound in E. cbn [String.length] in *.
    rewrite IH by (rewrite length_drop; lia). lia.
  - rewrite D. lia.
Qed.

Lemma Count_dotHashes (s : string) : Count s ".#" = dotHashes s.
Proof. unfold Count. now rewrite Count_loop_dotHashes by lia. Qed.

Lemma hashSegments_dotHashes (s : string) :
  forall b, hashSegments b s = true ->
    numHash s = (dotHashes s + if String.prefix "#" s then 1 else 0)%nat.
Proof.
  induction s as [|c s IH]; intros b H; [reflexivity|].
  rewrite prefix_hash. cbn [hashSegments numHash dotHashes] in *.
  destruct (Ascii.eqb_spec c "#"%char) as [->|NE].
  - apply andb_prop in H as [H H3]. apply andb_prop in H as [_ H2].
    assert (P : String.prefix "#" s = false).
    { rewrite prefix_hash. destruct s as [|d s]; [reflexivity|].
      apply Ascii.eqb_eq in H2. now subst d. }
    rewrite (IH false H3), P. cbn. lia.
  - rewrite (IH _ H). destruct (String.prefix "#" s) eqn:P.
    + rewrite prefix_hash in P. destruct s as [|d s]; [discriminate|].
      apply Ascii.eqb_eq in P. subst d. cbn [hashSegments] in H.
      rewrite Ascii.eqb_refl in H.
      apply andb_prop in H as [H _]. apply andb_prop in H as [H _].
      rewrite H. cbn. lia.
    + rewrite andb_false_r. lia.
Qed.

Lemma splitPath_cons (s : string) :
  exists seg segs, RefJson.splitPath s = seg :: segs.
Proof.
  induction s as [|c s (seg & segs & IH)]; [now exists EmptyString, []|].
  cbn [RefJson.splitPath]. destruct (Ascii.eqb c "."%char); [eauto|].
  rewrite IH. eauto.
Qed.

Lemma hashSegments_segments (s : string) :
  forall b, hashSegments b s = true ->
    numHash s = wildcardSegments s.
Proof.
  unfold wildcardSegments.
  induction s as [|c s IH]; intros b H; [reflexivity|].
  cbn [hashSegments numHash RefJson.splitPath] in *.
  destruct (Ascii.eqb_spec c "#"%char) as [->|NE].
  - apply andb_prop in H as [H H3]. apply andb_prop in H as [_ H2].
    rewrite (IH false H3). cbn [Ascii.eqb Bool.eqb].
    destruct s as [|d s]; [reflexivity|].
    apply Ascii.eqb_eq in H2. subst d.
    cbn [RefJson.splitPath Ascii.eqb Bool.eqb List.filter String.eqb length].
    reflexivity.
  - cbn [Nat.add]. destruct (Ascii.eqb_spec c "."%char) as [->|NP].
    + rewrite (IH true H). reflexivity.
    + rewrite (IH false H).
      destruct (splitPath_cons s) as (seg & segs & E). rewrite E.
      cbn [List.filter].
      assert (F : String.eqb "#" (String c seg) = false).
      { apply String.eqb_neq. congruence. }
      rewrite F.
      destruct (String.eqb_spec "#" seg) as [<-|NS]; [|reflexivity].
      exfalso. destruct s as [|d s]; [discriminate E|].
      cbn [RefJson.splitPath] in E.
      destruct (Ascii.eqb_spec d "."%char) as [->|ND]; [discriminate E|].
      destruct (splitPath_cons s) as (seg' & segs' & E'). rewrite E' in E.
      injection E as -> _ _. cbn [hashSegments] in H.
      rewrite Ascii.eqb_refl in H. discriminate H.
Qed.

(** When every [#] of a path is a whole segment after a dot, the count of
    [.#] is the number of wildcard segments. *)
Lemma Count_wildcardSegments (s : string) :
  hashSegments false s = true -> Count s ".#" = wildcardSegments s.
Proof.
  intros H. rewrite Count_dotHashes, <- (hashSegments_segments s false H).
  rewrite (hashSegments_dotHashes s false H), prefix_hash.
  destruct s as [|c s]; [reflexivity|]. cbn [hashSegments] in H.
  destruct (Ascii.eqb c "#"%char); [discriminate H | lia].
Qed.

End WildcardSegments.

(** ** The paths of the introspection and their wildcard segments *)

Section HashFree.

Import StrFacts.

Lemma hashSegments_nohash (w : string) (b : bool) :
  mem "#"%char w = false -> hashSegments b w = true.
Proof.
  revert b. induction w as [|c w IH]; intros b H; [reflexivity|].
  apply mem_cons_false in H as [Hc Hw]. cbn [hashSegments].
  destruct (Ascii.eqb_spec c "#"%char) as [->|_]; [congruence|].
  now apply IH.
Qed.

Lemma hashSegments_app (a t : string) :
  forall b, hashSegments b a = true -> hashSegments true t = true ->
    hashSegments b (a +:+ "." +:+ t) = true.
Proof.
  induction a as [|c a IH]; intros b Ha Ht; [exact Ht|].
  change (String c a +:+ "." +:+ t) with (String c (a +:+ "." +:+ t)).
  cbn [hashSegments] in *.
  destruct (Ascii.eqb c "#"%char).
  - apply andb_prop in Ha as [Ha H3]. apply andb_prop in Ha as [H1 H2].
    rewrite H1, (IH false H3 Ht), andb_true_r. cbn [andb].
    destruct a as [|d a]; [reflexivity | exact H2].
  - now apply IH.
Qed.

Lemma hashSegments_weaken (s : string) :
  hashSegments false s = true -> hashSegments true s = true.
Proof.
  destruct s as [|c s]; [reflexivity|]. cbn [hashSegments].
  destruct (Ascii.eqb c "#"%char); [discriminate | auto].
Qed.

Lemma hashSegments_wildcard (s : string) :
  hashSegments false s = true -> hashSegments false (s +:+ ".#") = true.
Proof.
  intros H. change (s +:+ ".#") with (s +:+ "." +:+ "#").
  now apply hashSegments_app.
Qed.

Lemma hashSegments_joinPath (p t : string) :
  hashSegments false p = true -> hashSegments false t = true ->
  hashSegments false (joinPath p t) = true.
Proof.
  intros Hp Ht. unfold joinPath.
  destruct (String.eqb p EmptyString); [exact Ht|].
  apply hashSegments_app; [exact Hp | now apply hashSegments_weaken].
Qed.

Lemma hashSegments_sliceLoop (t : Type_) :
  forall name, hashSegments false name = true ->
    hashSegments false (snd (sliceLoop t name)) = true.
Proof.
  induction t; intros name H; cbn [sliceLoop snd]; try exact H.
  apply IHt. now apply hashSegments_wildcard.
Qed.

Lemma allFields_derefPtr (P : StructField -> bool) (t : Type_) :
  allFields P t = true -> allFields P (derefPtr t) = true.
Proof. induction t; cbn [derefPtr allFields]; auto. Qed.

Lemma allFields_elemOf (P : StructField -> bool) (t : Type_) :
  allFields P t = true -> allFields P (elemOf t) = true.
Proof. destruct t; cbn [elemOf allFields]; auto. Qed.

Lemma allFields_sliceLoop (P : StructField -> bool) (t : Type_) :
  forall name, allFields P t = true ->
    allFields P (fst (sliceLoop t name)) = true.
Proof.
  induction t; intros name H; cbn [sliceLoop fst]; try exact H.
  now apply IHt.
Qed.

Lemma allFields_struct (P : StructField -> bool)
    (fields : list (StructField * Type_)) (sf : StructField) (ft : Type_) :
  allFields P (TStruct fields) = true -> In (sf, ft) fields ->
  P sf = true /\ allFields P ft = true.
Proof.
  induction fields as [|[sf' ft'] fields IH]; intros H HI; [destruct HI|].
  cbn [allFields] in H. apply andb_prop in H as [H H3].
  apply andb_prop in H as [H1 H2].
  destruct HI as [E|HI]; [injection E as <- <-; now split|].
  apply IH; [exact H3 | exact HI].
Qed.

Lemma Forall_flat_map {A B : Type} (P : B -> Prop) (f : A -> list B)
    (l : list A) :
  (forall a, In a l -> Forall P (f a)) -> Forall P (flat_map f l).
Proof.
  induction l as [|a l IH]; intros H; [constructor|].
  cbn [flat_map]. apply List.Forall_app. split.
  - apply H. now left.
  - apply IH. intros b Hb. apply H. now right.
Qed.

Variable jm : JsonMaskerImpl.

(** Without a [#] in the wire names, a [#] comes into a path only as the
    wildcard segment that the introspection appends. *)
Lemma extract_hashSegments (fuel : nat) :
  (forall str p,
     hashFree jm str = true -> hashSegments false p = true ->
     Forall (fun r => hashSegments false (Path r) = true)
       (extractStructRules_fuel fuel jm str p)) /\
  (forall val sf p,
     hashFree jm val = true -> mem "#"%char (wireName jm sf) = false ->
     hashSegments false p = true ->
     Forall (fun r => hashSegments false (Path r) = true)
       (extractStructFieldRules_fuel fuel jm val sf p)).
Proof.
  induction fuel as [|fuel [IHs IHf]]; [split; constructor|].
  split.
  - intros str p HF Hp. cbn [extractStructRules_fuel]. cbv zeta.
    apply allFields_derefPtr in HF.
    destruct (derefPtr str) as [| | | | |fields]; try constructor.
    apply Forall_flat_map. intros [sft sfv] HI.
    destruct (allFields_struct _ fields sft sfv HF HI) as [H1 H2].
    destruct (IsExported sft); [|constructor].
    apply IHf; [exact H2 | | exact Hp].
    now apply negb_true_iff in H1.
  - intros val sf p HF Hw Hp. cbn [extractStructFieldRules_fuel]. cbv zeta.
    unfold wireName in Hw.
    destruct (parseFieldTag jm sf) as [name maskTag]. cbn [fst] in Hw.
    assert (Hn : hashSegments false (joinPath p name) = true)
      by (apply hashSegments_joinPath;
          [exact Hp | now apply hashSegments_nohash]).
    apply allFields_derefPtr in HF.
    set (v0 := derefPtr val) in *.
    set (isSlice := Kind_eqb (kindOf v0) Slice || Kind_eqb (kindOf v0) Array).
    assert (HF1 : hashFree jm (if isSlice then elemOf v0 else v0) = true)
      by (destruct isSlice; [now apply allFields_elemOf | exact HF]).
    set (v1 := if isSlice then elemOf v0 else v0) in *.
    assert (Hj : hashSegments false
                   (if isSlice then joinPath p (name +:+ ".#") else name)
                 = true).
    { destruct isSlice; [|now apply hashSegments_nohash].
      apply hashSegments_joinPath; [exact Hp|].
      apply hashSegments_wildcard. now apply hashSegments_nohash. }
    destruct (String.eqb maskTag "-"); [now repeat constructor|].
    destruct (negb (isComposite (kindOf v1))).
    { destruct (String.eqb maskTag EmptyString); now repeat constructor. }
    destruct (kindOf v1);
      try (repeat constructor; cbn [RuleLit Path];
           now apply hashSegments_joinPath).
    + pose proof (allFields_sliceLoop _ v1
                    (if isSlice then joinPath p (name +:+ ".#") else name)
                    HF1) as H1.
      pose proof (hashSegments_sliceLoop v1 _ Hj) as H2.
      destruct (sliceLoop v1 _) as [v2 name2]. cbn [fst snd] in *.
      now apply IHs.
    + now apply IHs.
Qed.

Lemma ParseStruct_wildcardSegments (src : Type_) :
  hashFree jm src = true ->
  Forall (fun r => sliceLevel r = wildcardSegments (Path r))
    (Rules (ParseStruct jm src)).
Proof.
  intros HF. unfold ParseStruct, extractStructRules. cbn [Rules].
  pose proof (proj1 (extract_hashSegments (2 * depth src)) src EmptyString
                HF eq_refl) as H.
  induction H as [|r rs Hr _ IH]; constructor; [|exact IH].
  cbn [sliceLevel Path]. now apply Count_wildcardSegments.
Qed.

End HashFree.

(** ** Rules of [ParseStruct] *)

Section ParseStructFacts.

Variable jm : JsonMaskerImpl.

(** C7 (amended). In the rules of [ParseStruct] the wildcard level of a
    rule is the number of places of its path where [.#] begins. When no
    wire name of the record description holds a [#], that is the number
    of wildcard segments of the path. In every case [Mask] never returns
    the error [invalid json array path] on these rules: the branch that
    makes it is not reached. *)
Theorem ParseStruct_sliceLevel (src : Type_) :
  (hashFree jm src = true ->
   Forall (fun r => sliceLevel r = wildcardSegments (Path r))
     (Rules (ParseStruct jm src))) /\
  Forall (fun r => sliceLevel r = dotHashes (Path r))
    (Rules (ParseStruct jm src)) /\
  forall (lib : JsonLib) (data d : bytes),
    Mask jm data (ParseStruct jm src)
    <> (d, Some (errors_New "invalid json array path")).
Proof.
  assert (F : Forall (fun r => sliceLevel r = Count (Path r) ".#")
                (Rules (ParseStruct jm src))).
  { unfold ParseStruct. cbn [Rules].
    induction (extractStructRules jm src EmptyString) as [|r rs IH];
      constructor; [reflexivity | exact IH]. }
  split; [apply ParseStruct_wildcardSegments|]. split.
  - induction F as [|r rs Hr _ IH]; constructor; [|exact IH].
    now rewrite Hr, Count_dotHashes.
  - intros lib data d HM.
    pose proof (errIn_mask jm _ F data) as E. unfold Mask in HM.
    rewrite HM in E. cbn in E. destruct E as [E|[m E]]; discriminate E.
Qed.

Lemma extractStructRules_struct_app
    (fields1 fields2 : list (StructField * Type_)) (parentAttr : string) :
  extractStructRules jm (TStruct (fields1 ++ fields2)) parentAttr =
  extractStructRules jm (TStruct fields1) parentAttr
  ++ extractStructRules jm (TStruct fields2) parentAttr.
Proof.
  rewrite !extractStructRules_eq. cbn [derefPtr]. apply flat_map_app.
Qed.

Lemma extractStructRules_struct_cons
    (sf : StructField) (ft : Type_) (fields : list (StructField * Type_))
    (parentAttr : string) :
  extractStructRules jm (TStruct ((sf, ft) :: fields)) parentAttr =
  (if IsExported sf then extractStructFieldRules jm ft sf parentAttr else [])
  ++ extractStructRules jm (TStruct fields) parentAttr.
Proof. rewrite !extractStructRules_eq. reflexivity. Qed.

End ParseStructFacts.

Lemma ParseStruct_sliceLevel_witness :
  Forall (fun r => sliceLevel r = wildcardSegments (Path r))
    (Rules (ParseStruct New Examples.Matrix)).
Proof.
  apply (proj1 (ParseStruct_sliceLevel New Examples.Matrix)).
  vm_compute. reflexivity.
Defined.

(** C7 as stated fails: a wire name that begins with [#] gives, below
    another record, a path in which [.#] occurs without any wildcard
    segment; the rule gets the wildcard level 1. *)
Lemma ParseStruct_sliceLevel_counterexample :
  ~ (forall src : Type_,
       Forall (fun r => sliceLevel r = wildcardSegments (Path r))
         (Rules (ParseStruct New src))).
Proof.
  intros H.
  specialize (H (TStruct [ (Examples.field "Node" "node" "",
                              TStruct [ (Examples.field "Text" "#text" "upper",
                                           TScalar SString) ]) ])).
  apply List.Forall_inv in H. vm_compute in H. discriminate H.
Qed.

(** ** The deletion tag *)

Section DeletionTag.

Variable jm : JsonMaskerImpl.
Import StrFacts.


Lemma sliceLoop_iter (k : nat) (fs : list (StructField * Type_))
    (name : string) :
  sliceLoop (slices k (TStruct fs)) name
  = (TStruct fs, name +:+ wildcards k).
Proof.
  revert name. induction k as [|k IH]; intros name.
  - cbn. now rewrite append_nil_r.
  - cbn [slices sliceLoop wildcards]. rewrite IH.
    now rewrite append_assoc.
Qed.





End DeletionTag.



(** ** The email masker *)

Section EmailFacts.

(** The loops of [Email] never run out of fuel. *)
Lemma findAt_fuel (b : bytes) :
  forall fuel1 fuel2 i hi,
    hi - i <= Z.of_nat fuel1 -> hi - i <= Z.of_nat fuel2 ->
    findAt fuel1 b i hi = findAt fuel2 b i hi.
Proof.
  induction fuel1 as [|fuel1 IH]; intros [|fuel2] i hi H1 H2;
    cbn [findAt]; destruct (Z.ltb_spec i hi); try reflexivity; try lia.
  destruct (Ascii.eqb (byte_at b i) "@"); [reflexivity|]. apply IH; lia.
Qed.

Lemma findLastDot_fuel (b : bytes) :
  forall fuel1 fuel2 i lo,
    i - lo <= Z.of_nat fuel1 -> i - lo <= Z.of_nat fuel2 ->
    findLastDot fuel1 b i lo = findLastDot fuel2 b i lo.
Proof.
  induction fuel1 as [|fuel1 IH]; intros [|fuel2] i lo H1 H2;
    cbn [findLastDot]; destruct (Z.ltb_spec lo i); try reflexivity; try lia.
  destruct (Ascii.eqb (byte_at b i) "."); [reflexivity|]. apply IH; lia.
Qed.

Lemma fillStars_fuel :
  forall fuel1 fuel2 b i hi,
    hi - i <= Z.of_nat fuel1 -> hi - i <= Z.of_nat fuel2 ->
    fillStars fuel1 b i hi = fillStars fuel2 b i hi.
Proof.
  induction fuel1 as [|fuel1 IH]; intros [|fuel2] b i hi H1 H2;
    cbn [fillStars]; destruct (Z.ltb_spec i hi); try reflexivity; try lia.
  apply IH; lia.
Qed.

(** C8. [Email] on the two addresses of the specification, and on any
    text that is not enclosed in double quotes. *)
Theorem Email_redaction :
  Email (js "'user@example.com'") = js "'u**r@e******.com'" /\
  Email (js "'ab@domain.com'") = js "'a*@d*****.com'" /\
  forall email : string,
    len email < 2 \/ byte_at email 0 <> dquote
    \/ byte_at email (len email - 1) <> dquote ->
    Email email = js "'invalid_email_format'".
Proof.
  split; [reflexivity|]. split; [reflexivity|].
  intros email H. unfold Email.
  destruct (Z.ltb_spec (len email) 2) as [|Hlen]; [reflexivity|].
  destruct (Ascii.eqb_spec (byte_at email 0) dquote) as [E0|];
    [|reflexivity].
  destruct (Ascii.eqb_spec (byte_at email (len email - 1)) dquote) as [E1|];
    [|reflexivity].
  destruct H as [H|[H|H]]; [lia | congruence | congruence].
Qed.

End EmailFacts.

Lemma Email_redaction_witness :
  Email "missingquotes@example.com" = js "'invalid_email_format'".
Proof.
  apply Email_redaction. right. left. vm_compute. discriminate.
Defined.

(** ** Distinct paths *)

Section DistinctPaths.

Variable jm : JsonMaskerImpl.
Import StrFacts.

Lemma joinPath_app (p a b : string) :
  joinPath p (a +:+ b) = joinPath p a +:+ b.
Proof.
  unfold joinPath. destruct (String.eqb p EmptyString); [reflexivity|].
  now rewrite !append_assoc.
Qed.

Lemma joinPath_nonempty (p n : string) :
  n <> EmptyString -> joinPath p n <> EmptyString.
Proof.
  unfold joinPath. destruct (String.eqb_spec p EmptyString) as [->|Hp];
    [auto|]. intros _. destruct p; [congruence | discriminate].
Qed.

Lemma joinPath_under (p n : string) :
  p <> EmptyString -> joinPath p n = p +:+ "." +:+ n.
Proof.
  intros Hp. unfold joinPath.
  now destruct (String.eqb_spec p EmptyString).
Qed.

Lemma append_inv_head (a b c : string) : a +:+ b = a +:+ c -> b = c.
Proof. induction a as [|x a IH]; simpl; [auto|]. intros H. injection H. auto. Qed.

(** Two plain segments that start the same text are equal. *)
Lemma plain_head_unique (n1 n2 r1 r2 : string) :
  mem "."%char n1 = false -> mem "."%char n2 = false ->
  (r1 = EmptyString \/ exists r', r1 = "." +:+ r') ->
  (r2 = EmptyString \/ exists r', r2 = "." +:+ r') ->
  n1 +:+ r1 = n2 +:+ r2 -> n1 = n2.
Proof.
  revert n2. induction n1 as [|c n1 IH]; intros [|d n2] H1 H2 R1 R2 E.
  - reflexivity.
  - apply mem_cons_false in H2 as [Hd _]. cbn in E.
    destruct R1 as [->|[r' ->]]; [discriminate|].
    injection E as E _. congruence.
  - apply mem_cons_false in H1 as [Hc _]. cbn in E.
    destruct R2 as [->|[r' ->]]; [discriminate|].
    injection E as E _. congruence.
  - apply mem_cons_false in H1 as [_ H1].
    apply mem_cons_false in H2 as [_ H2].
    cbn in E. injection E as -> E. f_equal. eauto.
Qed.

Lemma headed_unique (p n1 n2 q : string) :
  plainName n1 = true -> plainName n2 = true ->
  headed p n1 q -> headed p n2 q -> n1 = n2.
Proof.
  unfold plainName. intros P1 P2 (r1 & E1 & R1) (r2 & E2 & R2).
  apply andb_true_iff in P1 as [_ P1]. apply andb_true_iff in P2 as [_ P2].
  apply negb_true_iff in P1, P2.
  rewrite E1 in E2. unfold joinPath in E2.
  destruct (String.eqb p EmptyString).
  - exact (plain_head_unique n1 n2 r1 r2 P1 P2 R1 R2 E2).
  - rewrite !append_assoc in E2. apply append_inv_head in E2.
    cbn in E2. injection E2 as E2.
    exact (plain_head_unique n1 n2 r1 r2 P1 P2 R1 R2 E2).
Qed.

Lemma sliceLoop_fst (val : Type_) (a b : string) :
  fst (sliceLoop val a) = fst (sliceLoop val b).
Proof. revert a b. induction val; intros a b; simpl; auto. Qed.

Lemma sliceLoop_snd (val : Type_) :
  exists s, forall a, snd (sliceLoop val a) = a +:+ s.
Proof.
  induction val; try (exists EmptyString; intros a; simpl;
                      now rewrite append_nil_r).
  destruct IHval as [s Hs]. exists (".#" +:+ s). intros a. simpl.
  now rewrite Hs, append_assoc.
Qed.

Lemma nodupb_cons (x : string) (l : list string) :
  nodupb (x :: l) = true -> ~ In x l /\ nodupb l = true.
Proof.
  cbn [nodupb]. intros H. apply andb_true_iff in H as [H1 H2].
  split; [|exact H2]. intros Hin. apply negb_true_iff in H1.
  assert (existsb (String.eqb x) l = true)
    by (apply existsb_exists; exists x; split;
        [exact Hin | apply String.eqb_refl]).
  congruence.
Qed.

(** The paths of the rules of a list of fields, when each field gives
    distinct paths headed by its wire name. *)
Lemma NoDup_fields (p : string) (paths : StructField * Type_ -> list string)
    (fields : list (StructField * Type_)) :
  nodupb (List.map (fun f => wireName jm (fst f)) fields) = true ->
  (forall f, In f fields ->
     plainName (wireName jm (fst f)) = true /\
     List.NoDup (paths f) /\
     List.Forall (headed p (wireName jm (fst f))) (paths f)) ->
  List.NoDup (flat_map paths fields).
Proof.
  induction fields as [|f fields IH]; intros HN HF; [constructor|].
  cbn [List.map] in HN. apply nodupb_cons in HN as [Hnotin HN].
  destruct (HF f (or_introl eq_refl)) as (Hplain & Hnd & Hhead).
  cbn [flat_map]. apply List.NoDup_app.
  - exact Hnd.
  - apply IH; [exact HN|]. intros g Hg. apply HF. now right.
  - intros q Hq Hq'. apply in_flat_map in Hq' as (g & Hg & Hqg).
    destruct (HF g (or_intror Hg)) as (Hplain' & _ & Hhead').
    rewrite List.Forall_forall in Hhead, Hhead'.
    assert (E : wireName jm (fst f) = wireName jm (fst g))
      by (eapply headed_unique; eauto).
    apply Hnotin. rewrite E.
    apply (in_map (fun f => wireName jm (fst f))). exact Hg.
Qed.

Lemma flat_map_exported (F : StructField -> Type_ -> list Rule)
    (fields : list (StructField * Type_)) :
  List.map Path
    (flat_map (fun f : StructField * Type_ =>
                 let (sft, sfv) := f in
                 if IsExported sft then F sft sfv else []) fields)
  = flat_map (fun f => List.map Path (F (fst f) (snd f)))
      (List.filter (fun f : StructField * Type_ => IsExported (fst f))
         fields).
Proof.
  induction fields as [|[sft sfv] fields IH]; [reflexivity|].
  cbn [flat_map List.filter fst]. rewrite List.map_app, IH.
  destruct (IsExported sft); reflexivity.
Qed.

Lemma headed_self (p n : string) : headed p n (joinPath p n).
Proof. exists EmptyString. rewrite append_nil_r. auto. Qed.

Lemma append_nonempty (a b : string) :
  a <> EmptyString -> a +:+ b <> EmptyString.
Proof. destruct a; [congruence | discriminate]. Qed.

Lemma plainName_nonempty (n : string) :
  plainName n = true -> n <> EmptyString.
Proof.
  unfold plainName. intros H. apply andb_true_iff in H as [H _].
  apply negb_true_iff in H. now apply String.eqb_neq.
Qed.

(** On a regular record the paths are pairwise distinct; those of a
    record lie under its prefix, those of a field are headed by its wire
    name. *)
Lemma regular_sound (fuel : nat) :
  (forall top str p,
     regular_fuel fuel jm top str = true ->
     (top = true -> p = EmptyString) ->
     List.NoDup (List.map Path (extractStructRules jm str p)) /\
     List.Forall
       (fun q => p <> EmptyString -> exists q', q = p +:+ "." +:+ q')
       (List.map Path (extractStructRules jm str p))) /\
  (forall top val sf p,
     regularField_fuel fuel jm top val sf = true ->
     plainName (wireName jm sf) = true ->
     (top = true -> p = EmptyString) ->
     List.NoDup (List.map Path (extractStructFieldRules jm val sf p)) /\
     List.Forall (headed p (wireName jm sf))
       (List.map Path (extractStructFieldRules jm val sf p))).
Proof.
  induction fuel as [|fuel [IHs IHf]]; [split; intros; discriminate|].
  split.
  - intros top str p HR Htop. cbn [regular_fuel] in HR.
    rewrite extractStructRules_eq.
    destruct (derefPtr str) as [| | | | |fields];
      try (split; constructor).
    apply andb_true_iff in HR as [HN HF].
    rewrite List.forallb_forall in HF.
    rewrite (flat_map_exported (fun sft sfv =>
               extractStructFieldRules jm sfv sft p)).
    assert (HA : forall f,
               In f (List.filter
                       (fun f : StructField * Type_ => IsExported (fst f))
                       fields) ->
               plainName (wireName jm (fst f)) = true /\
               List.NoDup (List.map Path
                 (extractStructFieldRules jm (snd f) (fst f) p)) /\
               List.Forall (headed p (wireName jm (fst f)))
                 (List.map Path
                    (extractStructFieldRules jm (snd f) (fst f) p))).
    { intros f Hf. specialize (HF f Hf).
      apply andb_true_iff in HF as [Hplain HRf].
      split; [exact Hplain|]. exact (IHf top _ _ p HRf Hplain Htop). }
    split.
    + eapply NoDup_fields; [exact HN | exact HA].
    + apply List.Forall_forall. intros q Hq.
      apply in_flat_map in Hq as (f & Hf & Hq).
      destruct (HA f Hf) as (_ & _ & Hhead).
      rewrite List.Forall_forall in Hhead.
      destruct (Hhead q Hq) as (r & -> & _).
      intros Hp. rewrite (joinPath_under p _ Hp).
      exists (wireName jm (fst f) +:+ r). now rewrite !append_assoc.
  - intros top val sf p HR Hplain Htop. cbn [regularField_fuel] in HR.
    rewrite extractStructFieldRules_eq. cbv zeta in *.
    unfold ruleTag, wireName in *.
    destruct (parseFieldTag jm sf) as [name maskTag]. cbn [fst snd] in *.
    pose proof (plainName_nonempty name Hplain) as Hne.
    set (v0 := derefPtr val) in *.
    set (isSlice := Kind_eqb (kindOf v0) Slice || Kind_eqb (kindOf v0) Array)
      in *.
    set (v1 := if isSlice then elemOf v0 else v0) in *.
    assert (One : forall action,
               List.NoDup (List.map Path [RuleLit (joinPath p name) action])
               /\ List.Forall (headed p name)
                    (List.map Path [RuleLit (joinPath p name) action])).
    { intros action. split; repeat constructor; [intros []|].
      apply headed_self. }
    destruct (String.eqb maskTag "-"); [apply One|].
    destruct (negb (isComposite (kindOf v1)));
      [destruct (String.eqb maskTag EmptyString);
       [split; constructor | apply One]|].
    assert (Other :
      negb isSlice || top = true ->
      forall action,
        List.NoDup
          (List.map Path
             [RuleLit (joinPath p (if isSlice
                                   then joinPath p (name +:+ ".#")
                                   else name)) action]) /\
        List.Forall (headed p name)
          (List.map Path
             [RuleLit (joinPath p (if isSlice
                                   then joinPath p (name +:+ ".#")
                                   else name)) action])).
    { intros HO action. split; repeat constructor; [intros []|].
      cbn [RuleLit Path]. destruct isSlice; [|apply headed_self].
      cbn in HO. rewrite (Htop HO). cbn [joinPath String.eqb].
      exists ".#". split; [reflexivity | right; now exists "#"]. }
    assert (Below : forall v s,
      regular_fuel fuel jm false v = true ->
      isSlice = true ->
      List.NoDup (List.map Path
        (extractStructRules jm v (joinPath p (name +:+ ".#") +:+ s))) /\
      List.Forall (headed p name)
        (List.map Path
           (extractStructRules jm v (joinPath p (name +:+ ".#") +:+ s)))).
    { intros v s Hv _.
      destruct (IHs false v (joinPath p (name +:+ ".#") +:+ s) Hv)
        as [Hnd Hpre]; [discriminate|].
      split; [exact Hnd|].
      apply List.Forall_forall. intros q Hq.
      rewrite List.Forall_forall in Hpre.
      destruct (Hpre q Hq) as [q' ->].
      { apply append_nonempty, joinPath_nonempty, append_nonempty, Hne. }
      rewrite joinPath_app. exists (".#" +:+ s +:+ "." +:+ q').
      split; [now rewrite !append_assoc|].
      right. now exists ("#" +:+ s +:+ "." +:+ q'). }
    destruct (kindOf v1) eqn:EK; try (apply Other; exact HR).
    + (* a slice of slices *)
      set (nm := if isSlice then joinPath p (name +:+ ".#") else name) in *.
      pose proof (sliceLoop_fst v1 nm EmptyString) as Ef.
      destruct (sliceLoop_snd v1) as [s Es]. specialize (Es nm).
      destruct (sliceLoop v1 nm) as [v2 name2]. cbn [fst snd] in Ef, Es.
      rewrite Ef, Es. subst nm.
      destruct isSlice eqn:EI; [now apply Below|].
      subst v1. unfold isSlice in EI. rewrite EK in EI. discriminate EI.
    + (* a record *)
      apply andb_true_iff in HR as [HO Hv].
      destruct isSlice eqn:EI.
      * rewrite <- (append_nil_r (joinPath p (name +:+ ".#"))).
        now apply Below.
      * cbn in HO. rewrite (Htop HO) in *.
        destruct (IHs false v1 name Hv) as [Hnd Hpre]; [discriminate|].
        split; [exact Hnd|].
        apply List.Forall_forall. intros q Hq.
        rewrite List.Forall_forall in Hpre.
        destruct (Hpre q Hq Hne) as [q' ->].
        exists ("." +:+ q'). split; [reflexivity | right; now exists q'].
Qed.

(** C4 (amended). On a regular record (in each record the exported fields
    have pairwise distinct wire names that are one path segment; records
    nested in a field of a record below the top-level one are elements of
    arrays) no two rules of [ParseStruct] have the same path. *)
Theorem ParseStruct_distinct_paths (src : Type_) :
  regular jm src = true ->
  List.NoDup (List.map Path (Rules (ParseStruct jm src))).
Proof.
  intros HR. unfold ParseStruct. cbn [Rules]. rewrite List.map_map.
  cbn [Path].
  destruct (regular_sound (2 * depth src)) as [Hs _].
  now destruct (Hs true src EmptyString HR).
Qed.

End DistinctPaths.

Lemma ParseStruct_distinct_paths_witness :
  List.NoDup (List.map Path (Rules (ParseStruct New Examples.Basic))).
Proof.
  apply ParseStruct_distinct_paths. vm_compute. reflexivity.
Defined.

(** C4 as stated fails: two fields of a record with the same wire name
    give two rules with the same path. *)
Lemma ParseStruct_distinct_paths_counterexample :
  ~ (forall src : Type_,
       List.NoDup (List.map Path (Rules (ParseStruct New src)))).
Proof.
  intros H. specialize (H Examples.SameName). vm_compute in H.
  inversion H as [|x l Hx _]. apply Hx. now left.
Qed.

(** ** The embedding against the package tests and the README *)

(** [TestJsonMaskerImpl_ParseStruct/Matrix]. *)
Example ParseStruct_Matrix :
  List.map (fun r => (Path r, Action r)) (Rules (ParseStruct New Examples.Matrix))
  = [("items.#.#.currency", "upper"); ("items.#.#.minorUnits", "zero");
     ("hiddenItems", "-")].
Proof. reflexivity. Qed.

(** [TestMask/Matrix]. *)
Example Mask_Matrix :
  Mask (lib := RefJson.lib) New
    (js "{'id':1,'items':[[{'ID':1,'currency':'usd','minorUnits':0},{'ID':2,'currency':'eur','minorUnits':0}],[{'ID':3,'currency':'czk','minorUnits':0},{'ID':4,'currency':'gbp','minorUnits':0}]],'hiddenItems':[[{'id':1,'amount':100},{'id':2,'amount':200}],[{'id':3,'amount':300},{'id':4,'amount':400}]]}")
    (ParseStruct New Examples.Matrix)
  = (js "{'id':1,'items':[[{'ID':1,'currency':'USD','minorUnits':0},{'ID':2,'currency':'EUR','minorUnits':0}],[{'ID':3,'currency':'CZK','minorUnits':0},{'ID':4,'currency':'GBP','minorUnits':0}]]}",
     None).
Proof. vm_compute. reflexivity. Qed.

(** [TestMask/Basic], the record being given by a pointer. *)
Example Mask_Basic :
  Mask (lib := RefJson.lib) New
    (js "{'id':1,'firstName':'john','lastName':'doe','birthDate':'2000-01-01','embedded':{'value':2},'hiddenEmbedded':{'value':3},'hiddenAttr':{'id':4,'amount':100}}")
    (ParseStruct New (TPtr Examples.TestBasic))
  = (js "{'id':1,'firstName':'J','lastName':'DOE','embedded':{'value':2}}",
     None).
Proof. vm_compute. reflexivity. Qed.

(** [TestMask/SlicePtr]. *)
Example Mask_SlicePtr :
  Mask (lib := RefJson.lib) New
    (js "{'id':1,'items':[{'ID':1,'currency':'usd','minorUnits':0},{'ID':2,'currency':'eur','minorUnits':0}],'hiddenItems':[{'id':1,'amount':100},{'id':2,'amount':200},{'id':3,'amount':300}]}")
    (ParseStruct New Examples.TestSlicePtr)
  = (js "{'id':1,'items':[{'ID':1,'currency':'USD','minorUnits':0},{'ID':2,'currency':'EUR','minorUnits':0}]}",
     None).
Proof. vm_compute. reflexivity. Qed.

(** [TestJsonMaskImpl_AddFunc]. *)
Example Mask_literal_rules :
  Mask (lib := RefJson.lib) New
    (js "{'name':'john','balance':{'currency':'usd'}}")
    {| Rules := [RuleLit "name" "initialChar";
                 RuleLit "balance.currency" "upper"] |}
  = (js "{'name':'J','balance':{'currency':'USD'}}", None).
Proof. vm_compute. reflexivity. Qed.

(** [TestEmail], the remaining cases. *)
Example Email_invalid :
  Email (js "'invalid'") = js "'invalid_email_format'" /\
  Email (js "'@missinglocal.com'") = js "'invalid_email_format'".
Proof. split; reflexivity. Qed.

(** A record nested in a record nested in a record: the prefix of the
    outer record is lost, and two rules get the same path although the
    fields of each record have distinct wire names. *)
Example ParseStruct_Nested :
  List.map (fun r => (Path r, Action r)) (Rules (ParseStruct New Examples.Nested))
  = [("a.b", "upper"); ("a.b", "lower")].
Proof. reflexivity. Qed.

(** * Further properties *)

(** ** Bytes of a text *)

Section ByteFacts.

Lemma byte_at_head (c : ascii) (s : string) : byte_at (String c s) 0 = c.
Proof. reflexivity. Qed.

Lemma byte_at_tail (c : ascii) (s : string) (j : Z) :
  0 <= j -> byte_at (String c s) (j + 1) = byte_at s j.
Proof.
  intros Hj. unfold byte_at.
  destruct (Z.ltb_spec (j + 1) 0); [lia|].
  destruct (Z.ltb_spec j 0); [lia|].
  replace (Z.to_nat (j + 1)) with (S (Z.to_nat j)) by lia. reflexivity.
Qed.

Lemma byte_at_outside (s : string) (j : Z) :
  j < 0 \/ len s <= j -> byte_at s j = Ascii.zero.
Proof.
  unfold byte_at, len. intros H.
  destruct (Z.ltb_spec j 0); [reflexivity|].
  assert (Hn : (String.length s <= Z.to_nat j)%nat) by lia.
  clear H H0. revert Hn. generalize (Z.to_nat j) as n.
  induction s as [|c s IH]; intros [|n] Hn; simpl in *; try reflexivity;
    try lia.
  apply IH. lia.
Qed.

Lemma length_set (i : Z) (c : ascii) (s : string) :
  String.length (set i c s) = String.length s.
Proof.
  unfold set. destruct (i <? 0); [reflexivity|].
  generalize (Z.to_nat i) as n. induction s as [|d s IH]; intros [|n];
    simpl; auto.
Qed.

Lemma get_set_nat_eq (n : nat) (c : ascii) (s : string) :
  (n < String.length s)%nat -> String.get n (set_nat n c s) = Some c.
Proof.
  revert n. induction s as [|d s IH]; intros [|n] H; simpl in *;
    try lia; try reflexivity.
  apply IH. lia.
Qed.

Lemma get_set_nat_ne (n m : nat) (c : ascii) (s : string) :
  n <> m -> String.get m (set_nat n c s) = String.get m s.
Proof.
  revert n m. induction s as [|d s IH]; intros [|n] [|m] H; simpl;
    try reflexivity; try congruence.
  apply IH. congruence.
Qed.

Lemma byte_at_set_eq (i : Z) (c : ascii) (s : string) :
  0 <= i < len s -> byte_at (set i c s) i = c.
Proof.
  unfold byte_at, set, len. intros H.
  destruct (Z.ltb_spec i 0); [lia|].
  rewrite get_set_nat_eq by lia. reflexivity.
Qed.

Lemma byte_at_set_ne (i j : Z) (c : ascii) (s : string) :
  i <> j -> byte_at (set i c s) j = byte_at s j.
Proof.
  unfold byte_at, set. intros H.
  destruct (Z.ltb_spec j 0); [reflexivity|].
  destruct (Z.ltb_spec i 0); [reflexivity|].
  rewrite get_set_nat_ne by lia. reflexivity.
Qed.

(** Two texts of the same length with the same bytes are equal. *)
Lemma bytes_ext (a b : string) :
  String.length a = String.length b ->
  (forall j, 0 <= j < len a -> byte_at a j = byte_at b j) -> a = b.
Proof.
  revert b. induction a as [|c a IH]; intros [|d b] HL HB;
    simpl in HL; try discriminate; [reflexivity|].
  f_equal.
  - apply (HB 0). unfold len. simpl. lia.
  - apply IH; [congruence|]. intros j Hj.
    rewrite <- (byte_at_tail c a j), <- (byte_at_tail d b j) by lia.
    apply HB. unfold len in *. simpl. lia.
Qed.

Lemma mem_byte_at (c : ascii) (s : string) (j : Z) :
  mem c s = false -> c <> Ascii.zero -> byte_at s j <> c.
Proof.
  intros Hm Hc.
  destruct (Z.ltb_spec j 0) as [Hj|Hj];
    [rewrite byte_at_outside by lia; congruence|].
  revert j Hj. induction s as [|d s IH]; intros j Hj.
  - rewrite byte_at_outside by (unfold len; simpl; lia). congruence.
  - apply StrFacts.mem_cons_false in Hm as [Hd Hm].
    destruct (Z.eq_dec j 0) as [->|Hne]; [rewrite byte_at_head; congruence|].
    replace j with ((j - 1) + 1) by lia. rewrite byte_at_tail by lia.
    apply IH; [exact Hm | lia].
Qed.

End ByteFacts.

(** ** The loops of [Email] *)

Section EmailLoops.

Lemma length_fillStars (fuel : nat) (b : bytes) (lo hi : Z) :
  String.length (fillStars fuel b lo hi) = String.length b.
Proof.
  revert b lo. induction fuel as [|fuel IH]; intros b lo; cbn [fillStars];
    [reflexivity|].
  destruct (lo <? hi); [|reflexivity]. now rewrite IH, length_set.
Qed.

Lemma fillStars_spec (fuel : nat) :
  forall (b : bytes) (lo hi j : Z),
    0 <= lo -> hi <= len b -> hi - lo <= Z.of_nat fuel ->
    byte_at (fillStars fuel b lo hi) j =
    if (lo <=? j) && (j <? hi) then "*"%char else byte_at b j.
Proof.
  induction fuel as [|fuel IH]; intros b lo hi j H0 Hhi Hf; cbn [fillStars].
  - destruct (Z.leb_spec lo j), (Z.ltb_spec j hi); cbn; try reflexivity. lia.
  - destruct (Z.ltb_spec lo hi) as [Hlt|Hge].
    + rewrite IH by (unfold len in *; rewrite ?length_set; lia).
      destruct (Z.eq_dec j lo) as [->|Hne].
      * destruct (Z.leb_spec (lo + 1) lo); [lia|].
        destruct (Z.leb_spec lo lo); [|lia].
        destruct (Z.ltb_spec lo hi); [|lia]. cbn.
        apply byte_at_set_eq. lia.
      * rewrite byte_at_set_ne by congruence.
        destruct (Z.leb_spec (lo + 1) j), (Z.leb_spec lo j),
          (Z.ltb_spec j hi); cbn; try reflexivity; lia.
    + destruct (Z.leb_spec lo j), (Z.ltb_spec j hi); cbn; try reflexivity.
      lia.
Qed.

Lemma findAt_spec (b : bytes) (fuel : nat) :
  forall i hi,
    hi - i <= Z.of_nat fuel ->
    (findAt fuel b i hi = -1 /\
     forall j, i <= j < hi -> byte_at b j <> "@"%char) \/
    (i <= findAt fuel b i hi < hi /\
     byte_at b (findAt fuel b i hi) = "@"%char /\
     forall j, i <= j < findAt fuel b i hi -> byte_at b j <> "@"%char).
Proof.
  induction fuel as [|fuel IH]; intros i hi Hf; cbn [findAt].
  - left. split; [reflexivity | intros; lia].
  - destruct (Z.ltb_spec i hi) as [Hlt|Hge];
      [|left; split; [reflexivity | intros; lia]].
    destruct (Ascii.eqb_spec (byte_at b i) "@"%char) as [E|NE].
    + right. split; [lia|]. split; [exact E | intros; lia].
    + destruct (IH (i + 1) hi) as [[E H]|(Hr & E & H)]; [lia| |].
      * left. split; [exact E|]. intros j Hj.
        destruct (Z.eq_dec j i) as [->|]; [exact NE | apply H; lia].
      * right. split; [lia|]. split; [exact E|]. intros j Hj.
        destruct (Z.eq_dec j i) as [->|]; [exact NE | apply H; lia].
Qed.

Lemma findLastDot_spec (b : bytes) (fuel : nat) :
  forall i lo,
    i - lo <= Z.of_nat fuel ->
    (findLastDot fuel b i lo = -1 /\
     forall j, lo < j <= i -> byte_at b j <> "."%char) \/
    (lo < findLastDot fuel b i lo <= i /\
     byte_at b (findLastDot fuel b i lo) = "."%char /\
     forall j, findLastDot fuel b i lo < j <= i -> byte_at b j <> "."%char).
Proof.
  induction fuel as [|fuel IH]; intros i lo Hf; cbn [findLastDot].
  - left. split; [reflexivity | intros; lia].
  - destruct (Z.ltb_spec lo i) as [Hlt|Hge];
      [|left; split; [reflexivity | intros; lia]].
    destruct (Ascii.eqb_spec (byte_at b i) "."%char) as [E|NE].
    + right. split; [lia|]. split; [exact E | intros; lia].
    + destruct (IH (i - 1) lo) as [[E H]|(Hr & E & H)]; [lia| |].
      * left. split; [exact E|]. intros j Hj.
        destruct (Z.eq_dec j i) as [->|]; [exact NE | apply H; lia].
      * right. split; [lia|]. split; [exact E|]. intros j Hj.
        destruct (Z.eq_dec j i) as [->|]; [exact NE | apply H; lia].
Qed.

End EmailLoops.

(** ** The email masker, in general *)

(** Case analysis on the comparisons of a goal. *)
Ltac zbool :=
  repeat match goal with
         | |- context [?x <=? ?y] => destruct (Z.leb_spec x y)
         | |- context [?x <? ?y] => destruct (Z.ltb_spec x y)
         end;
  cbn; try reflexivity; try lia.

Section EmailShape.

Lemma emailAt_unique (email : string) (a a' : Z) :
  emailAt email a -> emailAt email a' -> a = a'.
Proof.
  intros (Ha & Ea & Na) (Ha' & Ea' & Na').
  destruct (Z.lt_trichotomy a a') as [H|[H|H]]; [|exact H|].
  - exfalso. apply (Na' a); [lia | exact Ea].
  - exfalso. apply (Na a'); [lia | exact Ea'].
Qed.

Lemma emailDot_unique (email : string) (a d d' : Z) :
  emailDot email a d -> emailDot email a d' -> d = d'.
Proof.
  intros (Hd & Ed & Nd) (Hd' & Ed' & Nd').
  destruct (Z.lt_trichotomy d d') as [H|[H|H]]; [|exact H|].
  - exfalso. apply (Nd d'); [lia | exact Ed'].
  - exfalso. apply (Nd' d); [lia | exact Ed].
Qed.

(** What [Email] returns: the sentinel, or the input with stars at the
    masked positions. *)
Lemma Email_cases (email : string) :
  (Email email = invalidEmail /\
   ~ (quoted email /\
      exists a d, 1 < a /\ emailAt email a /\ emailDot email a d)) \/
  (quoted email /\
   exists a d, 1 < a /\ emailAt email a /\ emailDot email a d /\
     String.length (Email email) = String.length email /\
     forall j, byte_at (Email email) j =
               if emailMasked a d j then "*"%char else byte_at email j).
Proof.
  unfold Email. set (n := len email). set (fuel := String.length email).
  assert (Hn : n = Z.of_nat fuel) by reflexivity.
  destruct (Z.ltb_spec n 2) as [Hlt|Hge].
  { left. split; [reflexivity|]. intros [(H & _) _]. fold n in H. lia. }
  destruct (Ascii.eqb_spec (byte_at email 0) dquote) as [Q0|Q0]; cbn [negb orb];
    [|left; split; [reflexivity | intros [(_ & H & _) _]; congruence]].
  destruct (Ascii.eqb_spec (byte_at email (n - 1)) dquote) as [Q1|Q1];
    cbn [negb];
    [|left; split; [reflexivity | intros [(_ & _ & H) _]; fold n in H;
                                  congruence]].
  assert (Q : quoted email) by (unfold quoted; fold n; auto).
  pose proof (findAt_spec email fuel 1 (n - 1)) as FA.
  set (atIndex := findAt fuel email 1 (n - 1)) in *.
  destruct FA as [[E NA]|(Hat & Eat & Nat_)]; [lia| |].
  { (* no @ *)
    rewrite E. cbn [Z.leb orb]. left. split; [reflexivity|].
    intros (_ & a & d & Ha1 & (Ha & Ea & _) & _).
    apply (NA a); [fold n in Ha; lia | exact Ea]. }
  assert (At : emailAt email atIndex) by (unfold emailAt; fold n; auto).
  destruct (Z.leb_spec atIndex 1) as [Hle|Hgt]; cbn [orb].
  { (* @ right after the opening quote *)
    left. split; [reflexivity|].
    intros (_ & a & d & Ha1 & At' & _).
    pose proof (emailAt_unique email _ _ At At'). lia. }
  destruct (Z.eqb_spec atIndex (n - 1)) as [Heq|_]; [lia|].
  set (localEnd := if atIndex - 1 <=? 2 then atIndex else atIndex - 1).
  assert (HL : 2 <= localEnd <= atIndex)
    by (unfold localEnd; destruct (Z.leb_spec (atIndex - 1) 2); lia).
  set (eb := if atIndex - 1 <=? 2 then fillStars fuel email 2 atIndex
             else fillStars fuel email 2 (atIndex - 1)).
  assert (Eb : eb = fillStars fuel email 2 localEnd)
    by (unfold eb, localEnd; now destruct (atIndex - 1 <=? 2)).
  assert (Leb : String.length eb = String.length email)
    by (rewrite Eb; apply length_fillStars).
  assert (Beb : forall j, byte_at eb j =
                          if (2 <=? j) && (j <? localEnd) then "*"%char
                          else byte_at email j).
  { intros j. rewrite Eb. apply fillStars_spec; fold n; lia. }
  assert (Same : forall j, atIndex <= j -> byte_at eb j = byte_at email j).
  { intros j Hj. rewrite Beb.
    destruct (Z.leb_spec 2 j), (Z.ltb_spec j localEnd); cbn;
      try reflexivity. lia. }
  pose proof (findLastDot_spec eb fuel (n - 2) atIndex) as FD.
  set (lastDotIndex := findLastDot fuel eb (n - 2) atIndex) in *.
  destruct FD as [[E ND]|(Hd & Ed & Nd)]; [lia| |].
  { (* no dot after the @ *)
    rewrite E. cbn [Z.eqb]. left. split; [reflexivity|].
    intros (_ & a & d & Ha1 & At' & (Hd & Ed & _)).
    pose proof (emailAt_unique email _ _ At At'); subst a.
    apply (ND d); [fold n in Hd; lia|]. rewrite Same by lia. exact Ed. }
  destruct (Z.eqb_spec lastDotIndex (-1)) as [Heq|_]; [lia|].
  right. split; [exact Q|]. exists atIndex, lastDotIndex.
  split; [lia|]. split; [exact At|]. split.
  { unfold emailDot. fold n. split; [lia|]. split.
    - rewrite <- Same by lia. exact Ed.
    - intros j Hj. rewrite <- Same by lia. apply Nd. lia. }
  split.
  { now rewrite length_fillStars. }
  intros j. rewrite fillStars_spec by (unfold len; rewrite ?Leb; fold fuel; lia).
  rewrite Beb. unfold emailMasked. fold localEnd.
  destruct (Z.leb_spec 2 j), (Z.ltb_spec j localEnd),
    (Z.leb_spec (atIndex + 2) j), (Z.ltb_spec j lastDotIndex); cbn;
    reflexivity.
Qed.

Lemma emailMasked_at (a d : Z) : emailMasked a d a = false.
Proof. unfold emailMasked. zbool. Qed.

Lemma emailMasked_after (a d j : Z) :
  d <= j -> a <= j -> emailMasked a d j = false.
Proof. unfold emailMasked. intros Hd Ha. zbool. Qed.

Lemma emailMasked_before (a d j : Z) :
  0 <= a -> j < 2 -> emailMasked a d j = false.
Proof. unfold emailMasked. intros Ha Hj. zbool. Qed.

(** The masked text of a valid input is itself a valid input, with the
    same [@] and the same last dot. *)
Lemma Email_masked_valid (email out : string) (a d : Z) :
  quoted email -> 1 < a -> emailAt email a -> emailDot email a d ->
  String.length out = String.length email ->
  (forall j, byte_at out j =
             if emailMasked a d j then "*"%char else byte_at email j) ->
  quoted out /\ emailAt out a /\ emailDot out a d.
Proof.
  intros (Hn & Q0 & Q1) Ha (Hat & Eat & Nat_) (Hd & Ed & Nd) HL HB.
  assert (Hlen : len out = len email) by (unfold len; now rewrite HL).
  split; [|split].
  - unfold quoted. rewrite Hlen. split; [exact Hn|]. split.
    + now rewrite HB, emailMasked_before by lia.
    + now rewrite HB, emailMasked_after by lia.
  - unfold emailAt. rewrite Hlen. split; [exact Hat|]. split.
    + now rewrite HB, emailMasked_at.
    + intros j Hj. rewrite HB.
      destruct (emailMasked a d j); [discriminate | now apply Nat_].
  - unfold emailDot. rewrite Hlen. split; [exact Hd|]. split.
    + now rewrite HB, emailMasked_after by lia.
    + intros j Hj. rewrite HB, emailMasked_after by lia. now apply Nd.
Qed.

(** X1. Whenever [Email] does not return the sentinel, its input is
    enclosed in double quotes, has a first [@] after at least one byte and
    a last dot after that [@], and the result is the input, byte by byte,
    with a star at each masked position: same length, quotes, first byte,
    [@], first byte of the domain and everything from the last dot on
    unchanged. *)
Theorem Email_shape (email : string) :
  Email email <> invalidEmail ->
  quoted email /\
  exists a d, 1 < a /\ emailAt email a /\ emailDot email a d /\
    String.length (Email email) = String.length email /\
    forall j, byte_at (Email email) j =
              if emailMasked a d j then "*"%char else byte_at email j.
Proof.
  intros H. destruct (Email_cases email) as [[E _]|R]; [congruence | exact R].
Qed.

(** X2. [Email] returns the sentinel exactly when its input is not a text
    in double quotes with an [@] after at least one byte and a dot after
    the first [@]. *)
Theorem Email_sentinel_iff (email : string) :
  Email email = invalidEmail <->
  ~ (quoted email /\
     exists a d, 1 < a /\ emailAt email a /\ emailDot email a d).
Proof.
  destruct (Email_cases email) as [[E N]|(Q & a & d & Ha & At & Dt & HL & HB)].
  - split; auto.
  - split.
    + intros E. exfalso.
      assert (B : byte_at (Email email) a = "@"%char).
      { rewrite HB, emailMasked_at. now destruct At as (_ & Ea & _). }
      rewrite E in B. revert B. apply mem_byte_at; [reflexivity | discriminate].
    + intros N. exfalso. apply N. split; [exact Q|]. now exists a, d.
Qed.

Lemma Email_idempotent_lemma (email : string) :
  Email (Email email) = Email email.
Proof.
  destruct (Email_cases email) as [[E N]|(Q & a & d & Ha & At & Dt & HL & HB)].
  - rewrite E. reflexivity.
  - destruct (Email_masked_valid email (Email email) a d Q Ha At Dt HL HB)
      as (Q' & At' & Dt').
    destruct (Email_cases (Email email))
      as [[_ N]|(_ & a' & d' & _ & At2 & Dt2 & HL2 & HB2)].
    + exfalso. apply N. split; [exact Q'|]. now exists a, d.
    + pose proof (emailAt_unique _ _ _ At' At2); subst a'.
      pose proof (emailDot_unique _ _ _ _ Dt' Dt2); subst d'.
      apply bytes_ext; [exact HL2|]. intros j _. rewrite HB2, HB.
      now destruct (emailMasked a d j).
Qed.

(** X3. [Email] is idempotent: masking a masked address changes nothing,
    and the sentinel is mapped to itself; in particular the result of
    [Email] is the sentinel or a text that [Email] accepts. *)
Theorem Email_idempotent (email : string) :
  Email (Email email) = Email email /\
  (Email email = invalidEmail \/ Email (Email email) <> invalidEmail).
Proof.
  split; [apply Email_idempotent_lemma|].
  destruct (Email_cases email) as [[E _]|(Q & a & d & Ha & At & Dt & HL & HB)];
    [now left | right].
  rewrite Email_idempotent_lemma. intros E.
  assert (B : byte_at (Email email) a = "@"%char).
  { rewrite HB, emailMasked_at. now destruct At as (_ & Ea & _). }
  rewrite E in B. revert B. apply mem_byte_at; [reflexivity | discriminate].
Qed.

End EmailShape.

Lemma Email_shape_witness :
  quoted (js "'user@example.com'") /\
  exists a d, 1 < a /\ emailAt (js "'user@example.com'") a /\
    emailDot (js "'user@example.com'") a d /\
    String.length (Email (js "'user@example.com'"))
    = String.length (js "'user@example.com'") /\
    forall j, byte_at (Email (js "'user@example.com'")) j =
              if emailMasked a d j then "*"%char
              else byte_at (js "'user@example.com'") j.
Proof.
  apply Email_shape. vm_compute. discriminate.
Defined.

(** ** The other maskers *)

Section MaskerFacts.

Import StrFacts.

Lemma upper_byte_idem (c : ascii) : upper_byte (upper_byte c) = upper_byte c.
Proof. destruct c as [[] [] [] [] [] [] [] []]; reflexivity. Qed.

Lemma lower_byte_idem (c : ascii) : lower_byte (lower_byte c) = lower_byte c.
Proof. destruct c as [[] [] [] [] [] [] [] []]; reflexivity. Qed.

Lemma map_idem (f : ascii -> ascii) (s : string) :
  (forall c, f (f c) = f c) -> Str.map f (Str.map f s) = Str.map f s.
Proof. intros H. induction s as [|c s IH]; simpl; [reflexivity|]. now rewrite H, IH. Qed.

Lemma length_take (n : nat) (s : string) :
  String.length (take n s) = Nat.min n (String.length s).
Proof. revert s. induction n as [|n IH]; intros [|c s]; simpl; auto. Qed.

Lemma take_take_app (n : nat) (s t : string) :
  (n <= String.length s)%nat -> take n (take n s +:+ t) = take n s.
Proof.
  intros H. rewrite <- (take_app (take n s) t) at 2.
  now rewrite length_take, Nat.min_l.
Qed.

Lemma InitialChar_idem (s : string) : InitialChar (InitialChar s) = InitialChar s.
Proof.
  unfold InitialChar. destruct (Z.ltb_spec 2 (len s)) as [H|H].
  - destruct s as [|c0 [|c1 s]]; try (unfold len in H; simpl in H; lia).
    cbn. now rewrite !upper_byte_idem.
  - destruct (Z.ltb_spec 2 (len s)); [lia | reflexivity].
Qed.

Lemma Truncate_idem (s : string) : Truncate (Truncate s) = Truncate s.
Proof.
  unfold Truncate.
  destruct ((2 <? len s) && negb (String.eqb (ToUpper s) "NULL")) eqn:E;
    [reflexivity | now rewrite E].
Qed.

Lemma wrapInt_small (z : Z) : MinInt <= z <= MaxInt -> wrapInt z = z.
Proof.
  unfold wrapInt, MinInt, MaxInt. intros H.
  rewrite Z.mod_small by lia. lia.
Qed.

Lemma PrefixFn_short (n : Z) (addEllipsis : bool) (s : string) :
  -2 <= n <= MaxInt - 2 -> len s <= n + 2 ->
  PrefixFn n addEllipsis s = Some s.
Proof.
  intros Hn H. unfold PrefixFn.
  rewrite wrapInt_small by (unfold MinInt, MaxInt in *; lia).
  destruct (Z.leb_spec (len s) (n + 2)); [reflexivity | lia].
Qed.

Lemma PrefixFn_long (n : Z) (addEllipsis : bool) (s : string) :
  -1 <= n <= MaxInt - 2 -> n + 2 < len s ->
  PrefixFn n addEllipsis s =
  Some (take (Z.to_nat (n + 1)) s +:+
        (if addEllipsis then "..." +:+ String dquote EmptyString
         else String dquote EmptyString)).
Proof.
  intros Hn H. unfold PrefixFn, sliceTo.
  rewrite !wrapInt_small by (unfold MinInt, MaxInt in *; lia).
  destruct (Z.leb_spec (len s) (n + 2)); [lia|].
  destruct (Z.leb_spec 0 (n + 1)); [|lia].
  destruct (Z.leb_spec (n + 1) (len s)); [|lia].
  now destruct addEllipsis.
Qed.

Lemma PrefixFn_idem (n : Z) (addEllipsis : bool) (s : string) :
  0 <= n <= MaxInt - 2 ->
  exists out,
    PrefixFn n addEllipsis s = Some out /\
    PrefixFn n addEllipsis out = Some out.
Proof.
  intros Hn. destruct (Z.leb_spec (len s) (n + 2)) as [H|H].
  - exists s. split; apply PrefixFn_short; lia.
  - eexists. split; [apply PrefixFn_long; lia|].
    assert (HT : String.length (take (Z.to_nat (n + 1)) s) = Z.to_nat (n + 1))
      by (rewrite length_take; unfold len in H; lia).
    destruct addEllipsis.
    + rewrite PrefixFn_long;
        [|lia | unfold len; rewrite length_append, HT; simpl; lia].
      rewrite take_take_app by (unfold len in H; lia). reflexivity.
    + apply PrefixFn_short; [lia|].
      unfold len. rewrite length_append, HT. simpl. lia.
Qed.

Lemma first4_idem (s : string) :
  closure (PrefixFn 4 false) (closure (PrefixFn 4 false) s)
  = closure (PrefixFn 4 false) s.
Proof.
  destruct (PrefixFn_idem 4 false s) as (out & E1 & E2);
    [unfold MaxInt; lia|].
  unfold closure. now rewrite E1, E2.
Qed.

(** X5. For a length [n] from [0] to [MaxInt - 2], where [n + 2] does not
    wrap around, the function [PrefixFn(n, addEllipsis)] returns on every
    text: one of at most [n + 2] bytes as it is; a longer one cut after
    the opening quote and [n] bytes and closed by a quote, after three dots
    when [addEllipsis] is set. Without the ellipsis the result has
    [min(len, n + 2)] bytes; with it the result of a cut has [n + 5]
    bytes, more than an input of [n + 3] or [n + 4] bytes. The function
    is idempotent. *)
Theorem PrefixFn_cut (n : Z) (addEllipsis : bool) (s : string) :
  0 <= n <= MaxInt - 2 ->
  (len s <= n + 2 -> PrefixFn n addEllipsis s = Some s) /\
  (n + 2 < len s ->
   exists out,
     PrefixFn n addEllipsis s = Some out /\
     out = take (Z.to_nat (n + 1)) s +:+
           (if addEllipsis then "..." +:+ String dquote EmptyString
            else String dquote EmptyString) /\
     len out = if addEllipsis then n + 5 else n + 2) /\
  (exists out,
     PrefixFn n false s = Some out /\ len out = Z.min (len s) (n + 2)) /\
  (exists out,
     PrefixFn n addEllipsis s = Some out /\
     PrefixFn n addEllipsis out = Some out).
Proof.
  intros Hn.
  assert (HT : n + 2 < len s ->
               String.length (take (Z.to_nat (n + 1)) s) = Z.to_nat (n + 1))
    by (intros H; rewrite length_take; unfold len in H; lia).
  split; [apply PrefixFn_short; lia|]. split; [|split].
  - intros H. eexists. split; [apply PrefixFn_long; lia|].
    split; [reflexivity|]. unfold len. rewrite length_append, (HT H).
    destruct addEllipsis; simpl String.length; lia.
  - destruct (Z.leb_spec (len s) (n + 2)) as [H|H].
    + exists s. split; [apply PrefixFn_short; lia | lia].
    + eexists. split; [apply PrefixFn_long; lia|].
      unfold len. rewrite length_append, (HT H). simpl String.length.
      unfold len in H. lia.
  - now apply PrefixFn_idem.
Qed.

(** X22. Where the closure of [PrefixFn] does not return: for an [int]
    [n] and a text shorter than [MaxInt], the call panics exactly when [n]
    is below [-1] and the text is longer than [n + 2] (a negative upper
    bound of the slice), or [n] is [MaxInt - 1] or [MaxInt] ([n + 2] wraps
    around to a negative number, the text is taken as longer, and the
    upper bound [n + 1] is out of range). *)
Theorem PrefixFn_panics (n : Z) (addEllipsis : bool) (s : string) :
  MinInt <= n <= MaxInt ->
  len s < MaxInt ->
  PrefixFn n addEllipsis s = None <->
  (n <= -2 /\ n + 2 < len s) \/ MaxInt - 1 <= n.
Proof.
  intros Hn Hs.
  assert (L0 : 0 <= len s) by (unfold len; lia).
  destruct (Z.le_gt_cases (MaxInt - 1) n) as [Top|Mid].
  - split; [now right|]. intros _.
    assert (E : n = MaxInt - 1 \/ n = MaxInt) by lia.
    unfold PrefixFn, sliceTo.
    destruct E as [-> | ->].
    + replace (wrapInt (MaxInt - 1 + 2)) with MinInt
        by (vm_compute; reflexivity).
      replace (wrapInt (MaxInt - 1 + 1)) with MaxInt
        by (vm_compute; reflexivity).
      destruct (Z.leb_spec (len s) MinInt); [unfold MinInt in *; lia|].
      destruct (Z.leb_spec MaxInt (len s)); [lia|].
      now rewrite andb_false_r.
    + replace (wrapInt (MaxInt + 2)) with (MinInt + 1)
        by (vm_compute; reflexivity).
      replace (wrapInt (MaxInt + 1)) with MinInt
        by (vm_compute; reflexivity).
      destruct (Z.leb_spec (len s) (MinInt + 1)); [unfold MinInt in *; lia|].
      destruct (Z.leb_spec 0 MinInt); [unfold MinInt in *; lia|].
      reflexivity.
  - unfold PrefixFn, sliceTo.
    rewrite !wrapInt_small by (unfold MinInt, MaxInt in *; lia).
    destruct (Z.leb_spec (len s) (n + 2)) as [H|H].
    + split; [discriminate|]. intros [[H1 H2]|H1]; lia.
    + destruct (Z.leb_spec 0 (n + 1)) as [H1|H1].
      * destruct (Z.leb_spec (n + 1) (len s)) as [H2|H2]; [|lia].
        split; [discriminate|]. intros [[H3 H4]|H3]; lia.
      * split; [intros _; left; lia | reflexivity].
Qed.

(** X4. Every function that [New] registers is idempotent on ASCII text
    (on which [bytes.ToUpper] and [bytes.ToLower] act byte by byte):
    applying a built-in masker to its own result changes nothing. *)
Theorem builtin_maskers_idempotent (name : string) (f : string -> bytes)
    (s : string) :
  funcs New !! name = Some f ->
  isASCII s = true ->
  f (f s) = f s.
Proof.
  intros H _. unfold New, NewWithMaskTag, AddFunc in H. cbn [funcs] in H.
  repeat (apply lookup_insert_Some in H as [[_ <-]|[_ H]];
          [first [ reflexivity
                 | apply map_idem, upper_byte_idem
                 | apply map_idem, lower_byte_idem
                 | apply InitialChar_idem
                 | apply Truncate_idem
                 | apply Email_idempotent_lemma
                 | apply first4_idem ]|]).
  rewrite lookup_empty in H. discriminate H.
Qed.

End MaskerFacts.

Lemma builtin_maskers_idempotent_witness :
  InitialChar (InitialChar (js "'hello'")) = InitialChar (js "'hello'").
Proof.
  apply (builtin_maskers_idempotent "initialChar" InitialChar (js "'hello'"));
    vm_compute; reflexivity.
Defined.

Lemma PrefixFn_cut_witness :
  PrefixFn 3 true (js "'hell'") = Some (js "'hel...'") /\
  len (js "'hel...'") = 8.
Proof.
  destruct (PrefixFn_cut 3 true (js "'hell'")) as (_ & L & _);
    [unfold MaxInt; lia|].
  destruct L as (out & E & -> & HL); [vm_compute; reflexivity|].
  split; [exact E | exact HL].
Defined.

Lemma PrefixFn_panics_witness :
  PrefixFn MaxInt false (js "'hell'") = None.
Proof.
  apply PrefixFn_panics; [unfold MinInt, MaxInt; lia | vm_compute; reflexivity|].
  right. lia.
Defined.

(** ** The introspection, by shape of the fields *)

Section Shapes.

Variable jm : JsonMaskerImpl.
Import StrFacts.

Lemma parseFieldTag_pair (sf : StructField) :
  parseFieldTag jm sf = (wireName jm sf, ruleTag jm sf).
Proof. unfold wireName, ruleTag. now destruct (parseFieldTag jm sf). Qed.

Lemma leaf_field_rules (ft : Type_) (sf : StructField) (p : string) :
  isLeaf ft = true ->
  extractStructFieldRules jm ft sf p =
  if String.eqb (ruleTag jm sf) EmptyString then [] else [fieldRule jm p sf].
Proof.
  intros HL. rewrite extractStructFieldRules_eq. cbv zeta.
  rewrite parseFieldTag_pair. unfold isLeaf in HL. unfold fieldRule.
  destruct (String.eqb_spec (ruleTag jm sf) "-") as [E|NE].
  - rewrite E. reflexivity.
  - destruct (derefPtr ft) as [k|? ?|?|e|n e|?]; try discriminate HL.
    + now destruct k.
    + destruct e as [k| | | | |]; try discriminate HL. now destruct k.
    + destruct e as [k| | | | |]; try discriminate HL. now destruct k.
Qed.

(** X6. In a record whose fields are scalars, or slices or arrays of
    scalars, possibly behind pointers, the introspection gives exactly one
    rule for each exported field with a rule tag, in the order of the
    fields: its action is the tag and its path the wire name of the field
    joined to the prefix, without any wildcard segment of its own, also
    for a slice. Fields without tag and unexported fields give nothing. *)
Theorem flat_record_rules (fields : list (StructField * Type_))
    (p : string) :
  Forall (fun f : StructField * Type_ => isLeaf (snd f) = true) fields ->
  extractStructRules jm (TStruct fields) p
  = List.map (fieldRule jm p) (List.filter (tagged jm) (List.map fst fields))
  /\
  List.map (fun r => (Path r, Action r))
    (Rules (ParseStruct jm (TStruct fields)))
  = List.map (fun sf => (wireName jm sf, ruleTag jm sf))
      (List.filter (tagged jm) (List.map fst fields)).
Proof.
  intros HF.
  assert (G : forall q,
             extractStructRules jm (TStruct fields) q
             = List.map (fieldRule jm q)
                 (List.filter (tagged jm) (List.map fst fields))).
  { intros q. induction HF as [|[sf ft] fields Hf _ IH].
    - now rewrite extractStructRules_eq.
    - rewrite extractStructRules_struct_cons, IH.
      cbn [List.map fst List.filter]. unfold tagged at 2.
      destruct (IsExported sf); [|reflexivity].
      rewrite (leaf_field_rules ft sf q Hf). cbn [andb].
      now destruct (String.eqb (ruleTag jm sf) EmptyString). }
  split; [apply G|].
  unfold ParseStruct. cbn [Rules]. rewrite G, !List.map_map.
  apply List.map_ext. intros sf. reflexivity.
Qed.

(** X7. For a field that is a slice of records, or of slices of slices
    ... of records, and whose rule tag is not the deletion sentinel, the
    rules are those of the record under the prefix made of the address of
    the field and one wildcard segment for each level of nesting. Another
    rule tag of the field itself is not used. An array as the type of a
    field is treated as the slice of the same elements, whatever they
    are. *)
Theorem nested_slices_rules (k : nat) (n : nat)
    (fs : list (StructField * Type_)) (sf : StructField) (p : string) :
  ruleTag jm sf <> "-" ->
  extractStructFieldRules jm (TSlice (slices k (TStruct fs))) sf p
  = extractStructRules jm (TStruct fs)
      (joinPath p (wireName jm sf) +:+ wildcards (S k)) /\
  (forall elem,
     extractStructFieldRules jm (TArray n elem) sf p
     = extractStructFieldRules jm (TSlice elem) sf p).
Proof.
  intros NE. apply String.eqb_neq in NE.
  split.
  - rewrite extractStructFieldRules_eq. cbv zeta.
    rewrite parseFieldTag_pair, NE. cbn [derefPtr kindOf Kind_eqb orb elemOf].
    rewrite joinPath_app.
    destruct k as [|k].
    + reflexivity.
    + cbn [slices kindOf isComposite Kind_eqb orb negb].
      change (TSlice (slices k (TStruct fs)))
        with (slices (S k) (TStruct fs)).
      rewrite sliceLoop_iter. now rewrite !append_assoc.
  - intros elem. rewrite !extractStructFieldRules_eq. reflexivity.
Qed.

(** X8. A slice whose elements are pointers, arrays or maps is not
    entered: for such a field with a rule tag other than the deletion
    sentinel the introspection gives one rule, with the tag of the field
    (the empty action when it has none), whatever the element type
    contains; the prefix is joined twice to its path, and in the record
    given to [ParseStruct] the path is the wire name followed by one
    wildcard segment. A field that is a map is not entered either: it
    gives one rule at its address, with its tag, also when it has none. *)
Theorem slice_of_pointers_rules (elem : Type_) (sf : StructField) :
  ruleTag jm sf <> "-" ->
  kindOf elem = Ptr \/ kindOf elem = Array \/ kindOf elem = Map ->
  (forall p,
     extractStructFieldRules jm (TSlice elem) sf p
     = [RuleLit (joinPath p (joinPath p (wireName jm sf +:+ ".#")))
          (ruleTag jm sf)]) /\
  Rules (ParseStruct jm (TStruct [(sf, TSlice elem)]))
  = (if IsExported sf
     then [{| Path := wireName jm sf +:+ ".#"; Action := ruleTag jm sf;
              sliceLevel := Count (wireName jm sf +:+ ".#") ".#" |}]
     else []) /\
  (forall key val p,
     extractStructFieldRules jm (TMap key val) sf p
     = [RuleLit (joinPath p (wireName jm sf)) (ruleTag jm sf)]).
Proof.
  intros NE HK. apply String.eqb_neq in NE.
  assert (G : forall p,
             extractStructFieldRules jm (TSlice elem) sf p
             = [RuleLit (joinPath p (joinPath p (wireName jm sf +:+ ".#")))
                  (ruleTag jm sf)]).
  { intros p. rewrite extractStructFieldRules_eq. cbv zeta.
    rewrite parseFieldTag_pair, NE.
    cbn [derefPtr kindOf Kind_eqb orb elemOf]. unfold ruleTag, parseFieldTag.
    cbn [snd].
    destruct HK as [E|[E|E]]; rewrite E; reflexivity. }
  split; [exact G|]. split.
  - unfold ParseStruct. cbn [Rules].
    rewrite extractStructRules_struct_cons, G.
    rewrite (extractStructRules_eq jm (TStruct [])). cbn [derefPtr flat_map].
    destruct (IsExported sf); reflexivity.
  - intros key val p. rewrite extractStructFieldRules_eq. cbv zeta.
    rewrite parseFieldTag_pair, NE. reflexivity.
Qed.

(** X13. For a field that is itself a record (not a slice of records) and
    whose rule tag is not the deletion sentinel, the rules are those of
    the record under the wire name of the field alone: the prefix of the
    enclosing record is not part of their paths, so that they are the same
    under every prefix. *)
Theorem nested_record_prefix (fs : list (StructField * Type_))
    (sf : StructField) (p p' : string) :
  ruleTag jm sf <> "-" ->
  extractStructFieldRules jm (TStruct fs) sf p
  = extractStructRules jm (TStruct fs) (wireName jm sf) /\
  extractStructFieldRules jm (TStruct fs) sf p
  = extractStructFieldRules jm (TStruct fs) sf p'.
Proof.
  intros NE. apply String.eqb_neq in NE.
  assert (G : forall q,
             extractStructFieldRules jm (TStruct fs) sf q
             = extractStructRules jm (TStruct fs) (wireName jm sf)).
  { intros q. rewrite extractStructFieldRules_eq. cbv zeta.
    now rewrite parseFieldTag_pair, NE. }
  split; [apply G | now rewrite !G].
Qed.

End Shapes.

Lemma flat_record_rules_witness :
  List.map (fun r => (Path r, Action r))
    (Rules (ParseStruct New (TStruct flatFields)))
  = [("tags", "upper"); ("Note", "null")].
Proof.
  assert (F : Forall (fun f : StructField * Type_ => isLeaf (snd f) = true)
                flatFields) by (repeat constructor).
  rewrite (proj2 (flat_record_rules New flatFields EmptyString F)).
  vm_compute. reflexivity.
Defined.

Lemma nested_slices_rules_witness :
  extractStructFieldRules New (TSlice (TSlice Examples.TestStructMaskAttr))
    (Examples.field "Items" "items" "") EmptyString
  = [RuleLit "items.#.#.currency" "upper";
     RuleLit "items.#.#.minorUnits" "zero"].
Proof.
  unfold Examples.TestStructMaskAttr.
  rewrite (proj1 (nested_slices_rules New 1 0 _
                    (Examples.field "Items" "items" "") EmptyString
                    ltac:(vm_compute; discriminate))).
  vm_compute. reflexivity.
Defined.

Lemma slice_of_pointers_rules_witness :
  Rules (ParseStruct New
           (TStruct [ (Examples.field "Items" "items" "",
                         TSlice (TPtr Examples.TestStructMaskAttr)) ]))
  = [{| Path := "items.#"; Action := EmptyString; sliceLevel := 1 |}].
Proof.
  rewrite (proj1 (proj2 (slice_of_pointers_rules New
                           (TPtr Examples.TestStructMaskAttr)
                           (Examples.field "Items" "items" "")
                           ltac:(vm_compute; discriminate)
                           (or_introl eq_refl)))).
  vm_compute. reflexivity.
Defined.

Lemma nested_record_prefix_witness :
  extractStructFieldRules New
    (TStruct [ (Examples.field "B" "b" "upper", TScalar SString) ])
    (Examples.field "A" "a" "") "outer"
  = [RuleLit "a.b" "upper"].
Proof.
  rewrite (proj1 (nested_record_prefix New _
                    (Examples.field "A" "a" "") "outer" EmptyString
                    ltac:(vm_compute; discriminate))).
  vm_compute. reflexivity.
Defined.

(** ** The introspection, in general *)

Section IntrospectionFacts.

Import StrFacts.

Lemma parseFieldTag_tag (jm jm' : JsonMaskerImpl) (sf : StructField) :
  tag jm = tag jm' -> parseFieldTag jm sf = parseFieldTag jm' sf.
Proof. intros E. unfold parseFieldTag. now rewrite E. Qed.

(** The introspection reads of the masker its tag name only. *)
Lemma extract_fuel_tag (jm jm' : JsonMaskerImpl) (fuel : nat) :
  tag jm = tag jm' ->
  (forall str p,
     extractStructRules_fuel fuel jm str p
     = extractStructRules_fuel fuel jm' str p) /\
  (forall val sf p,
     extractStructFieldRules_fuel fuel jm val sf p
     = extractStructFieldRules_fuel fuel jm' val sf p).
Proof.
  intros E. induction fuel as [|fuel [IHs IHf]]; [now split|].
  split.
  - intros str p. cbn [extractStructRules_fuel]. cbv zeta.
    destruct (derefPtr str); try reflexivity.
    apply flat_map_ext_in. intros [sft sfv] _.
    destruct (IsExported sft); [apply IHf | reflexivity].
  - intros val sf p. cbn [extractStructFieldRules_fuel]. cbv zeta.
    rewrite (parseFieldTag_tag jm jm' sf E), E.
    destruct (parseFieldTag jm' sf) as [name maskTag].
    destruct (String.eqb maskTag "-"); [reflexivity|].
    destruct (negb _); [reflexivity|].
    destruct (kindOf _); try reflexivity; [|apply IHs].
    destruct (sliceLoop _ _). apply IHs.
Qed.

(** X11. The rules that [ParseStruct] gives do not depend on the functions
    registered in the masker: registering a function, before or after the
    introspection, leaves them as they are. *)
Theorem ParseStruct_AddFunc (jm : JsonMaskerImpl) (name : string)
    (f : string -> bytes) (src : Type_) :
  ParseStruct (AddFunc jm name f) src = ParseStruct jm src.
Proof.
  unfold ParseStruct, extractStructRules.
  now rewrite (proj1 (extract_fuel_tag (AddFunc jm name f) jm
                        (2 * depth src) eq_refl)).
Qed.

Variable jm : JsonMaskerImpl.

Lemma extractStructRules_filter (fields : list (StructField * Type_))
    (p : string) :
  extractStructRules jm (TStruct fields) p
  = extractStructRules jm
      (TStruct (List.filter
                  (fun f : StructField * Type_ => IsExported (fst f))
                  fields)) p.
Proof.
  induction fields as [|[sf ft] fields IH].
  - reflexivity.
  - cbn [List.filter fst]. rewrite extractStructRules_struct_cons, IH.
    destruct (IsExported sf) eqn:E; [|reflexivity].
    now rewrite extractStructRules_struct_cons, E.
Qed.

(** X9. The fields of a record contribute to the rules one after the
    other and independently: the rules of a record are the rules of its
    first fields followed by those of the remaining ones, and a field that
    is not exported contributes nothing, whatever its tags and its type:
    the record without its unexported fields has the same rules. *)
Theorem ParseStruct_fields (fields1 fields2 : list (StructField * Type_)) :
  Rules (ParseStruct jm (TStruct (fields1 ++ fields2)))
  = Rules (ParseStruct jm (TStruct fields1))
    ++ Rules (ParseStruct jm (TStruct fields2)) /\
  ParseStruct jm (TStruct fields1)
  = ParseStruct jm
      (TStruct (List.filter
                  (fun f : StructField * Type_ => IsExported (fst f))
                  fields1)).
Proof.
  unfold ParseStruct. cbn [Rules]. split.
  - now rewrite extractStructRules_struct_app, List.map_app.
  - now rewrite <- extractStructRules_filter.
Qed.

(** X10. Pointers are transparent for the introspection: a pointer to a
    type, at the top or as the type of a field, gives the rules of the
    type itself; and a value that is not a record, behind its pointers,
    gives no rules. *)
Theorem ParseStruct_pointer (src : Type_) (sf : StructField) (p : string) :
  ParseStruct jm (TPtr src) = ParseStruct jm src /\
  extractStructFieldRules jm (TPtr src) sf p
  = extractStructFieldRules jm src sf p /\
  ((forall fields, derefPtr src <> TStruct fields) ->
   Rules (ParseStruct jm src) = []).
Proof.
  split; [|split].
  - unfold ParseStruct. f_equal. f_equal.
    now rewrite (extractStructRules_eq jm (TPtr src)),
      (extractStructRules_eq jm src).
  - now rewrite (extractStructFieldRules_eq jm (TPtr src)),
      (extractStructFieldRules_eq jm src).
  - intros H. unfold ParseStruct. cbn [Rules].
    rewrite extractStructRules_eq.
    destruct (derefPtr src) as [| | | | |fields]; try reflexivity.
    now destruct (H fields).
Qed.

Lemma Index_comma_split (s : string) (idx : nat) :
  Index s "," = Some idx ->
  mem ","%char (take idx s) = false /\
  s = take idx s +:+ String ","%char (drop (S idx) s).
Proof.
  revert idx. induction s as [|c s IH]; intros idx H.
  - discriminate H.
  - cbn [Index String.prefix] in H.
    destruct (ascii_dec ","%char c) as [<-|NE].
    + rewrite prefix_nil in H. injection H as <-. now split.
    + destruct (Index s ",") as [k|] eqn:E; [|discriminate].
      injection H as <-. destruct (IH k eq_refl) as [Hm Hs].
      cbn [take drop mem]. split.
      * rewrite Hm. now destruct (Ascii.eqb_spec ","%char c).
      * change (String c s
                = String c (take k s +:+ String ","%char (drop (S k) s))).
        now rewrite <- Hs.
Qed.

Lemma Index_comma_none (s : string) :
  Index s "," = None -> mem ","%char s = false.
Proof.
  induction s as [|c s IH]; intros H; [reflexivity|].
  cbn [Index String.prefix] in H.
  destruct (ascii_dec ","%char c) as [<-|NE].
  - rewrite prefix_nil in H. discriminate.
  - destruct (Index s ",") as [k|] eqn:E; [discriminate|].
    cbn [mem]. rewrite (IH eq_refl).
    now destruct (Ascii.eqb_spec ","%char c).
Qed.

(** X12. The wire name of a field. When the [json] tag of the field is
    empty or begins with a comma, it is the name of the field. Otherwise
    it is the part of the [json] tag before its first comma: it is not
    empty, it holds no comma, and the [json] tag is the wire name followed
    by nothing or by a comma and the options. The rule tag is read under
    the tag name of the masker and is independent of the [json] tag. *)
Theorem parseFieldTag_wire_name (field : StructField) :
  let jsonAttr := Get (Tag field) "json" in
  (jsonAttr = EmptyString \/ byte_at jsonAttr 0 = ","%char ->
   wireName jm field = Name field) /\
  (jsonAttr <> EmptyString -> byte_at jsonAttr 0 <> ","%char ->
   wireName jm field <> EmptyString /\
   mem ","%char (wireName jm field) = false /\
   exists opts,
     jsonAttr = wireName jm field +:+ opts /\
     (opts = EmptyString \/ byte_at opts 0 = ","%char)) /\
  ruleTag jm field = Get (Tag field) (tag jm).
Proof.
  cbv zeta. unfold wireName, ruleTag, parseFieldTag. cbn [fst snd].
  set (j := Get (Tag field) "json").
  split; [|split; [|reflexivity]].
  - intros [E|E].
    + now rewrite E.
    + rewrite E, Ascii.eqb_refl. now rewrite orb_true_r.
  - intros NE NC.
    destruct (String.eqb_spec j EmptyString) as [|_]; [contradiction|].
    destruct (Ascii.eqb_spec (byte_at j 0) ","%char) as [|_]; [contradiction|].
    cbn [orb].
    destruct (Index j ",") as [idx|] eqn:EI.
    + destruct (Index_comma_split j idx EI) as [Hm Hs].
      split; [|split; [exact Hm|]].
      * intros E0. rewrite E0 in Hs. rewrite Hs in NC. now apply NC.
      * exists (String ","%char (drop (S idx) j)). split; [exact Hs|now right].
    + split; [exact NE|]. split.
      * now apply Index_comma_none.
      * exists EmptyString. rewrite append_nil_r. now split; [|left].
Qed.

End IntrospectionFacts.

(** ** The engine and the registry of functions *)

Section Registry.

Context {lib : JsonLib}.

(** What the engine reads of the registry for a rule: nothing when the
    action is the deletion sentinel, the entry of the action otherwise. *)
Lemma maskSimplePath_agree (jm jm' : JsonMaskerImpl) (data : bytes)
    (path action : string) :
  action = "-" \/ funcs jm !! action = funcs jm' !! action ->
  maskSimplePath jm data path action = maskSimplePath jm' data path action.
Proof.
  intros [E|E]; unfold maskSimplePath.
  - now rewrite E.
  - now rewrite E.
Qed.

Lemma rangeOverArray_fuel_agree (jm jm' : JsonMaskerImpl) (rule : Rule) :
  Action rule = "-" \/ funcs jm !! Action rule = funcs jm' !! Action rule ->
  forall fuel data arrPath arrItemPath,
    rangeOverArray_fuel jm fuel data rule arrPath arrItemPath
    = rangeOverArray_fuel jm' fuel data rule arrPath arrItemPath.
Proof.
  intros H. induction fuel as [|fuel IH]; intros data ap aip; [reflexivity|].
  cbn [rangeOverArray_fuel]. unfold rangeBody.
  destruct (negb (gjson.Exists (GetBytes data ap))); [reflexivity|].
  apply forRange_ext. intros i d. unfold rangeStep.
  destruct (String.eqb_spec (Action rule) "-") as [E|NE]; [reflexivity|].
  destruct H as [H|H]; [contradiction|]. rewrite H.
  destruct (Index aip ".#"); [apply IH | reflexivity].
Qed.

Lemma mask_agree (jm jm' : JsonMaskerImpl) (rules : list Rule) :
  Forall (fun r => Action r = "-"
                   \/ funcs jm !! Action r = funcs jm' !! Action r) rules ->
  forall data, mask jm data rules = mask jm' data rules.
Proof.
  induction 1 as [|r rules Hr _ IH]; intros data; [reflexivity|].
  rewrite !mask_cons.
  rewrite (maskSimplePath_agree jm jm' data (Path r) (Action r) Hr).
  unfold rangeOverArray.
  destruct (Nat.eqb (sliceLevel r) O).
  - unfold andThen. destruct (maskSimplePath jm' data (Path r) (Action r))
      as [d [e|]]; [reflexivity | apply IH].
  - destruct (Index (Path r) ".#") as [idx|]; [|reflexivity].
    rewrite (rangeOverArray_fuel_agree jm jm' r Hr).
    unfold andThen. destruct (rangeOverArray_fuel jm' _ data r _ _)
      as [d [e|]]; [reflexivity | apply IH].
Qed.

(** X17. The deletion sentinel cannot be given another meaning: a function
    registered under the name [-] is never called, [Mask] gives the same
    result with and without it, for every document and every rule set. *)
Theorem AddFunc_deletion_sentinel (jm : JsonMaskerImpl)
    (f : string -> bytes) (data : bytes) (smr : StructMaskRules) :
  Mask (AddFunc jm "-" f) data smr = Mask jm data smr.
Proof.
  unfold Mask. apply mask_agree. apply List.Forall_forall. intros r _.
  destruct (String.eqb_spec (Action r) "-") as [E|NE]; [now left|right].
  cbn [AddFunc funcs]. apply lookup_insert_ne. congruence.
Qed.

(** X18. Registering a function changes the result of [Mask] only through
    the rules whose action is its name: for a rule set in which no rule has
    that action, [Mask] gives the same result before and after the
    registration. *)
Theorem AddFunc_frame (jm : JsonMaskerImpl) (name : string)
    (f : string -> bytes) (data : bytes) (smr : StructMaskRules) :
  Forall (fun r => Action r <> name) (Rules smr) ->
  Mask (AddFunc jm name f) data smr = Mask jm data smr.
Proof.
  intros H. unfold Mask. apply mask_agree.
  induction H as [|r rules Hr _ IH]; constructor; [|exact IH].
  right. cbn [AddFunc funcs]. apply lookup_insert_ne. congruence.
Qed.

(** X20. The function registered last under a name is the one applied,
    also when the name is that of a built-in: registering [g] after [f]
    under the same name gives the masker in which only [g] has been
    registered, and a rule without wildcard whose action is that name
    writes, at its address, [g] of the raw text found there. *)
Theorem AddFunc_override (jm : JsonMaskerImpl) (name : string)
    (f g : string -> bytes) (data : bytes) (path : string) :
  name <> "-" ->
  AddFunc (AddFunc jm name f) name g = AddFunc jm name g /\
  Mask (AddFunc (AddFunc jm name f) name g) data
    {| Rules := [RuleLit path name] |}
  = match SetRawBytes data path (g (gjson.Raw (GetBytes data path))) with
    | (data', None) => (data', None)
    | (_, Some msg) => (EmptyString, Some (sjson_error msg))
    end.
Proof.
  intros NE.
  assert (E : AddFunc (AddFunc jm name f) name g = AddFunc jm name g).
  { unfold AddFunc. cbn [tag funcs]. f_equal. apply insert_insert_eq. }
  split; [exact E|]. rewrite E.
  unfold Mask. cbn [Rules]. rewrite mask_cons.
  cbn [RuleLit sliceLevel Nat.eqb Path Action].
  unfold maskSimplePath. apply String.eqb_neq in NE. rewrite NE.
  cbn [AddFunc funcs]. rewrite lookup_insert_eq.
  unfold andThen, sjsonResult.
  now destruct (SetRawBytes data path _) as [d [m|]].
Qed.

End Registry.

Lemma AddFunc_frame_witness :
  Mask (lib := RefJson.lib) (AddFunc New "hash" (fun _ => js "'#'"))
    (js "{'name':'ann','id':7}")
    {| Rules := [RuleLit "name" "upper"; RuleLit "id" "-"] |}
  = Mask (lib := RefJson.lib) New (js "{'name':'ann','id':7}")
      {| Rules := [RuleLit "name" "upper"; RuleLit "id" "-"] |}.
Proof.
  apply (AddFunc_frame (lib := RefJson.lib)). cbn [Rules].
  repeat constructor; cbn [RuleLit Action]; discriminate.
Defined.

Lemma AddFunc_override_witness :
  Mask (lib := RefJson.lib) (AddFunc (AddFunc New "upper" Lower) "upper" Zero)
    (js "{'name':'ann'}") {| Rules := [RuleLit "name" "upper"] |}
  = (js "{'name':0}", None).
Proof.
  destruct (AddFunc_override (lib := RefJson.lib) New "upper" Lower Zero
              (js "{'name':'ann'}") "name") as [_ H]; [discriminate|].
  rewrite H. vm_compute. reflexivity.
Defined.

(** ** The engine as a whole *)

Section MaskFacts.

Context {lib : JsonLib}.
Variable jm : JsonMaskerImpl.

(** X14. The rules are applied one after the other: [Mask] with no rule
    returns the document as it is, and [Mask] with the rules [rules1]
    followed by [rules2] is [Mask] with [rules1] and then, when that gave
    no error, [Mask] with [rules2] on the document it returned; when it
    gave an error, that error. *)
Theorem Mask_sequential (data : bytes) (rules1 rules2 : list Rule) :
  Mask jm data {| Rules := [] |} = (data, None) /\
  Mask jm data {| Rules := rules1 ++ rules2 |}
  = match Mask jm data {| Rules := rules1 |} with
    | (data', None) => Mask jm data' {| Rules := rules2 |}
    | (_, Some err) => (EmptyString, Some err)
    end.
Proof.
  split; [reflexivity|].
  unfold Mask. cbn [Rules]. rewrite mask_app. unfold andThen.
  destruct (mask jm data rules1) as [d [e|]]; reflexivity.
Qed.

(** X15. [Mask] never returns both a document and an error: with an error
    the document is nil, although [rangeOverArray] itself returns the
    document it was given together with the error for a missing array. *)
Theorem Mask_error_nil (data : bytes) (smr : StructMaskRules)
    (d : bytes) (e : error) :
  Mask jm data smr = (d, Some e) -> d = EmptyString.
Proof. unfold Mask. apply mask_error. Qed.

(** X16. An array without elements: a rule with a wildcard level whose
    wildcard prefix is found in the document with a length that is not
    positive changes nothing and gives no error, whatever its action and
    whatever follows the prefix in its path; [Mask] goes on with the
    remaining rules on the same document. *)
Theorem Mask_empty_array (data : bytes) (rule : Rule) (rules : list Rule)
    (idx : nat) :
  sliceLevel rule <> O ->
  Index (Path rule) ".#" = Some idx ->
  gjson.Exists (GetBytes data (take (idx + 2) (Path rule))) = true ->
  gjson.Int (GetBytes data (take (idx + 2) (Path rule))) <= 0 ->
  Mask jm data {| Rules := rule :: rules |}
  = Mask jm data {| Rules := rules |}.
Proof.
  intros HL HI HE HN. unfold Mask. cbn [Rules]. rewrite mask_cons.
  apply Nat.eqb_neq in HL. rewrite HL, HI.
  rewrite rangeOverArray_eq. unfold rangeBody. rewrite HE. cbn [negb].
  replace (Z.to_nat _) with O by lia. reflexivity.
Qed.

(** X19. A rule set made of rules without wildcard level, as every rule
    set written by hand is, fails only where the set or the delete
    primitive fails: an error of [Mask] is then an error of sjson, never
    one of the two errors of the package. *)
Theorem Mask_literal_errors (data : bytes) (smr : StructMaskRules)
    (d : bytes) (e : error) :
  Forall (fun r => sliceLevel r = O) (Rules smr) ->
  Mask jm data smr = (d, Some e) ->
  exists msg, e = sjson_error msg.
Proof.
  unfold Mask. intros HF. revert data.
  induction HF as [|r rules Hr _ IH]; intros data H; [discriminate|].
  rewrite mask_cons, Hr in H. cbn [Nat.eqb] in H.
  unfold andThen, maskSimplePath, sjsonResult in H.
  destruct (String.eqb (Action r) "-").
  - destruct (DeleteBytes data (Path r)) as [d' [m|]]; cbn in H.
    + injection H as _ <-. eauto.
    + eauto.
  - destruct (funcs jm !! Action r) as [fn|]; [|eauto].
    destruct (SetRawBytes data (Path r) _) as [d' [m|]]; cbn in H.
    + injection H as _ <-. eauto.
    + eauto.
Qed.

End MaskFacts.

Lemma Mask_error_nil_witness :
  fst (Mask (lib := RefJson.lib) New (js "{'id':1}")
         {| Rules := [{| Path := "items.#.x"; Action := "upper";
                         sliceLevel := 1 |}] |})
  = EmptyString.
Proof.
  apply (Mask_error_nil (lib := RefJson.lib) New (js "{'id':1}")
           {| Rules := [{| Path := "items.#.x"; Action := "upper";
                           sliceLevel := 1 |}] |}
           _ (errors_New "json array not found")).
  vm_compute. reflexivity.
Defined.

Lemma Mask_empty_array_witness :
  Mask (lib := RefJson.lib) New (js "{'items':[],'name':'ann'}")
    {| Rules := [{| Path := "items.#.x"; Action := "upper";
                    sliceLevel := 1 |}; RuleLit "name" "upper"] |}
  = Mask (lib := RefJson.lib) New (js "{'items':[],'name':'ann'}")
      {| Rules := [RuleLit "name" "upper"] |}.
Proof.
  apply (Mask_empty_array (lib := RefJson.lib) New _ _ _ 5%nat).
  - discriminate.
  - vm_compute; reflexivity.
  - vm_compute; reflexivity.
  - vm_compute; discriminate.
Defined.

Lemma Mask_literal_errors_witness :
  exists msg,
    snd (Mask (lib := RefJson.lib) New (js "{'id':1}")
           {| Rules := [RuleLit "" "-"] |})
    = Some (sjson_error msg).
Proof.
  destruct (Mask (lib := RefJson.lib) New (js "{'id':1}")
              {| Rules := [RuleLit "" "-"] |}) as [d [e|]] eqn:E.
  - assert (F : Forall (fun r => sliceLevel r = O)
                  (Rules {| Rules := [RuleLit "" "-"] |}))
      by (repeat constructor).
    destruct (Mask_literal_errors (lib := RefJson.lib) New _ _ d e F E)
      as [msg ->].
    now exists msg.
  - vm_compute in E. discriminate E.
Defined.

(** ** The built-in maskers keep the quotes *)

Section Quotes.

Import StrFacts.

Lemma length_map (f : ascii -> ascii) (s : string) :
  String.length (Str.map f s) = String.length s.
Proof. induction s as [|c s IH]; simpl; congruence. Qed.

Lemma byte_at_map (f : ascii -> ascii) (s : string) (j : Z) :
  0 <= j < len s -> byte_at (Str.map f s) j = f (byte_at s j).
Proof.
  revert j. induction s as [|c s IH]; intros j H.
  - unfold len in H. simpl in H. lia.
  - cbn [Str.map]. destruct (Z.eq_dec j 0) as [->|NE].
    + now rewrite !byte_at_head.
    + replace j with ((j - 1) + 1) by lia. rewrite !byte_at_tail by lia.
      apply IH. unfold len in *. simpl in H. lia.
Qed.

Lemma quoted_map (f : ascii -> ascii) (s : string) :
  f dquote = dquote -> quoted s -> quoted (Str.map f s).
Proof.
  intros Hf (HL & H0 & H1). unfold quoted, len in *.
  rewrite length_map. split; [exact HL|].
  rewrite !byte_at_map by (unfold len; lia). now rewrite H0, H1.
Qed.

Lemma byte_at_last (a : string) (c : ascii) :
  byte_at (a +:+ String c EmptyString) (len a) = c.
Proof.
  induction a as [|x a IH]; [reflexivity|].
  replace (len (String x a)) with (len a + 1)
    by (unfold len; simpl; lia).
  change (String x a +:+ String c EmptyString)
    with (String x (a +:+ String c EmptyString)).
  rewrite byte_at_tail by (unfold len; lia). exact IH.
Qed.

Lemma byte_at_app_head (a b : string) :
  a <> EmptyString -> byte_at (a +:+ b) 0 = byte_at a 0.
Proof. destruct a; [congruence | reflexivity]. Qed.

Lemma quoted_wrap (a : string) :
  a <> EmptyString -> byte_at a 0 = dquote ->
  quoted (a +:+ String dquote EmptyString).
Proof.
  intros NE H0. unfold quoted.
  assert (L : len (a +:+ String dquote EmptyString) = len a + 1).
  { unfold len. rewrite length_append. simpl. lia. }
  rewrite L. replace (len a + 1 - 1) with (len a) by lia.
  rewrite byte_at_last, byte_at_app_head, H0 by exact NE.
  repeat split. destruct a; [congruence|]. unfold len. simpl. lia.
Qed.

Lemma quoted_InitialChar (s : string) : quoted s -> quoted (InitialChar s).
Proof.
  intros Q. unfold InitialChar. destruct (Z.ltb_spec 2 (len s)); [|exact Q].
  apply quoted_map; [reflexivity|].
  destruct Q as (_ & H0 & _).
  destruct s as [|c0 [|c1 s]]; try (unfold len in *; simpl in *; lia).
  apply (quoted_wrap (String c0 (String c1 EmptyString))); [discriminate|].
  exact H0.
Qed.

Lemma quoted_Truncate (s : string) : quoted s -> quoted (Truncate s).
Proof.
  intros Q. unfold Truncate.
  destruct (_ && _); [|exact Q]. unfold quoted. now vm_compute.
Qed.

Lemma quoted_PrefixFn (n : Z) (addEllipsis : bool) (s : string) :
  0 <= n <= MaxInt - 2 -> quoted s ->
  exists out, PrefixFn n addEllipsis s = Some out /\ quoted out.
Proof.
  intros Hn Q. destruct (Z.le_gt_cases (len s) (n + 2)) as [H|H].
  - exists s. split; [apply PrefixFn_short; lia | exact Q].
  - eexists. split; [apply PrefixFn_long; lia|].
    destruct Q as (_ & H0 & _).
    assert (T : take (Z.to_nat (n + 1)) s <> EmptyString /\
                byte_at (take (Z.to_nat (n + 1)) s) 0 = dquote).
    { destruct (Z.to_nat (n + 1)) as [|k] eqn:E; [lia|].
      destruct s as [|c s]; [unfold len in H; simpl in H; lia|].
      split; [discriminate | exact H0]. }
    destruct T as [TN T0].
    destruct addEllipsis.
    + rewrite <- append_assoc. apply quoted_wrap.
      * now apply append_nonempty.
      * now rewrite byte_at_app_head.
    + now apply quoted_wrap.
Qed.

Lemma quoted_first4 (s : string) :
  quoted s -> quoted (closure (PrefixFn 4 false) s).
Proof.
  intros Q. destruct (quoted_PrefixFn 4 false s) as (out & E & Qo);
    [unfold MaxInt; lia | exact Q |].
  unfold closure. now rewrite E.
Qed.

Lemma quoted_Email (email : string) : quoted email -> quoted (Email email).
Proof.
  intros _.
  destruct (Email_cases email)
    as [[E _]|(Q & a & d & Ha & At & Dt & HL & HB)].
  - rewrite E. unfold quoted. now vm_compute.
  - destruct Q as (QL & Q0 & Q1). destruct At as (Hat & _).
    destruct Dt as (Hdt & _).
    unfold quoted, len in *. rewrite HL. split; [exact QL|].
    rewrite !HB.
    replace (emailMasked a d 0) with false by (unfold emailMasked; zbool).
    replace (emailMasked a d (Z.of_nat (String.length email) - 1))
      with false by (unfold emailMasked; zbool).
    now split.
Qed.

(** X21. The built-in maskers other than [null] and [zero] return a text
    in double quotes whenever they are given one (ASCII, for those that
    change the case): the value they write is again delimited as a JSON
    string, whether it was cut, emptied, redacted or replaced by the
    sentinel. A prefix function [PrefixFn(n, _)] returns such a text for
    every [n] from [0] to [MaxInt - 2]. *)
Theorem builtin_maskers_quoted (name : string) (f : string -> bytes)
    (s : string) :
  funcs New !! name = Some f ->
  name <> "null" -> name <> "zero" ->
  isASCII s = true ->
  quoted s ->
  quoted (f s) /\
  forall n addEllipsis, 0 <= n <= MaxInt - 2 ->
    exists out, PrefixFn n addEllipsis s = Some out /\ quoted out.
Proof.
  intros H NN NZ _ Q. split; [|intros; now apply quoted_PrefixFn].
  unfold New, NewWithMaskTag, AddFunc in H. cbn [funcs] in H.
  repeat (apply lookup_insert_Some in H as [[E <-]|[_ H]];
          [first [ congruence
                 | now apply quoted_map
                 | now apply quoted_InitialChar
                 | now apply quoted_Truncate
                 | now apply quoted_Email
                 | now apply quoted_first4 ]|]).
  rewrite lookup_empty in H. discriminate H.
Qed.

End Quotes.

Lemma builtin_maskers_quoted_witness :
  quoted (Truncate (js "'secret'")) /\
  exists out, PrefixFn 2 true (js "'secret'") = Some out /\ quoted out.
Proof.
  destruct (builtin_maskers_quoted "truncate" Truncate (js "'secret'"))
    as [H1 H2]; try (vm_compute; reflexivity); try discriminate.
  - unfold quoted. now vm_compute.
  - split; [exact H1 | apply H2; unfold MaxInt; lia].
Defined.
